(** * FileStore: the filesystem-backed store of tus-node-server

    A shallow embedding of [lib/stores/FileStore.js] and of the parts of
    the JavaScript runtime it calls (SHA-1 and base64 of [crypto], JSON,
    [parseInt], [String.prototype.split], the [fs] calls), followed by
    the properties of [create], [write] and [getOffset].

    Conventions.  A JavaScript string is a Rocq [string] holding its
    UTF-8 bytes, so that writing a string to a file and reading it back
    are the identity on bytes.  File contents are [list byte].  Offsets
    and sizes are [nat]; the values [parseInt] returns are [Z].  Integers
    stay below 2^53, where JavaScript numbers are exact. *)

From Stdlib Require Import ZArith Lia.
From Stdlib Require Import Strings.Byte Strings.Ascii Strings.String.
From stdpp Require Import base option list strings gmap pretty.

Local Open Scope Z_scope.

(** ** SHA-1 (FIPS 180-4), as computed by [crypto.createHash('sha1')] *)

Module Sha1.

Definition w32 (x : Z) : Z := x mod 2 ^ 32.

Definition add32 (x y : Z) : Z := w32 (x + y).

Definition rotl (n x : Z) : Z :=
  w32 (Z.lor (Z.shiftl x n) (Z.shiftr x (32 - n))).

(** The round function f_t and the round constant K_t. *)
Definition f (t : nat) (b c d : Z) : Z :=
  if (t <? 20)%nat then Z.lor (Z.land b c) (Z.land (w32 (Z.lnot b)) d)
  else if (t <? 40)%nat then Z.lxor (Z.lxor b c) d
  else if (t <? 60)%nat then
    Z.lor (Z.lor (Z.land b c) (Z.land b d)) (Z.land c d)
  else Z.lxor (Z.lxor b c) d.

Definition K (t : nat) : Z :=
  if (t <? 20)%nat then 0x5A827999
  else if (t <? 40)%nat then 0x6ED9EBA1
  else if (t <? 60)%nat then 0x8F1BBCDC
  else 0xCA62C1D6.

Definition byteZ (b : byte) : Z := Z.of_N (Byte.to_N b).

Definition Zbyte (z : Z) : byte :=
  default x00 (Byte.of_N (Z.to_N (z mod 256))).

(** Big-endian encoding of [z] on [n] bytes. *)
Fixpoint be_bytes (n : nat) (z : Z) : list byte :=
  match n with
  | O => []
  | S n' => Zbyte (Z.shiftr z (8 * Z.of_nat n')) :: be_bytes n' z
  end.

Definition be_word (bs : list byte) : Z :=
  fold_left (fun acc b => acc * 256 + byteZ b) bs 0.

(** Padding: the bit 1, zeros up to 56 mod 64, the length in bits. *)
Definition pad (msg : list byte) : list byte :=
  let len := length msg in
  let zeros := ((64 - (len + 9) mod 64) mod 64)%nat in
  msg ++ [x80] ++ replicate zeros x00 ++ be_bytes 8 (8 * Z.of_nat len).

Fixpoint chunks {A} (fuel size : nat) (l : list A) : list (list A) :=
  match fuel with
  | O => []
  | S fuel' =>
      match l with
      | [] => []
      | _ => take size l :: chunks fuel' size (drop size l)
      end
  end.

Definition blocks (bs : list byte) : list (list Z) :=
  map (fun blk => map be_word (chunks 16 4 blk)) (chunks (length bs) 64 bs).

(** Message schedule: W_t for t in 0..79. *)
Fixpoint schedule (n : nat) (ws : list Z) : list Z :=
  match n with
  | O => ws
  | S n' =>
      let t := length ws in
      let at_ k := nth (t - k) ws 0 in
      schedule n'
        (ws ++ [rotl 1 (Z.lxor (Z.lxor (Z.lxor (at_ 3%nat) (at_ 8%nat))
                                       (at_ 14%nat)) (at_ 16%nat))])
  end.

Definition state : Type := Z * Z * Z * Z * Z.

Definition round (s : state) (tw : nat * Z) : state :=
  let '(a, b, c, d, e) := s in
  let '(t, wt) := tw in
  let tmp := add32 (add32 (add32 (add32 (rotl 5 a) (f t b c d)) e) (K t)) wt in
  (tmp, a, rotl 30 b, c, d).

Definition compress (h : state) (blk : list Z) : state :=
  let ws := schedule 64 blk in
  let '(a, b, c, d, e) := fold_left round (imap (fun t x => (t, x)) ws) h in
  let '(h0, h1, h2, h3, h4) := h in
  (add32 h0 a, add32 h1 b, add32 h2 c, add32 h3 d, add32 h4 e).

Definition H0 : state :=
  (0x67452301, 0xEFCDAB89, 0x98BADCFE, 0x10325476, 0xC3D2E1F0).

Definition digest (msg : list byte) : list byte :=
  let '(h0, h1, h2, h3, h4) := fold_left compress (blocks (pad msg)) H0 in
  be_bytes 4 h0 ++ be_bytes 4 h1 ++ be_bytes 4 h2 ++ be_bytes 4 h3
    ++ be_bytes 4 h4.

End Sha1.

(** ** Base64 (RFC 4648, with padding), as produced by [digest('base64')] *)

Module Base64.

Definition alphabet : string :=
  "ABCDEFGHIJKLMNOPQRSTUVWXYZabcdefghijklmnopqrstuvwxyz0123456789+/".

Definition sextet (z : Z) : ascii :=
  default "="%char (String.get (Z.to_nat (z mod 64)) alphabet).

Fixpoint encode (bs : list byte) : string :=
  match bs with
  | [] => ""
  | [a] =>
      let n := Sha1.byteZ a * 65536 in
      String (sextet (Z.shiftr n 18)) (String (sextet (Z.shiftr n 12)) "==")
  | [a; b] =>
      let n := Sha1.byteZ a * 65536 + Sha1.byteZ b * 256 in
      String (sextet (Z.shiftr n 18)) (String (sextet (Z.shiftr n 12))
        (String (sextet (Z.shiftr n 6)) "="))
  | a :: b :: c :: rest =>
      let n := Sha1.byteZ a * 65536 + Sha1.byteZ b * 256 + Sha1.byteZ c in
      String (sextet (Z.shiftr n 18)) (String (sextet (Z.shiftr n 12))
        (String (sextet (Z.shiftr n 6)) (String (sextet n) (encode rest))))
  end.

End Base64.

Definition sha1_base64 (bs : list byte) : string :=
  Base64.encode (Sha1.digest bs).

Definition bytes (s : string) : list byte := list_byte_of_string s.

(** ** JavaScript values and the built-ins the store calls *)

Local Open Scope string_scope.
Local Open Scope list_scope.
Local Open Scope Z_scope.

Definition dquote : ascii := "034"%char.
Definition backslash : ascii := "092"%char.

(** [s.split(' ')]: the pieces of [s] between the separators, at least
    one piece. *)
Fixpoint split_on (sep : ascii) (s : string) : list string :=
  match s with
  | "" => [""]
  | String c s' =>
      if Ascii.eqb c sep then "" :: split_on sep s'
      else match split_on sep s' with
           | [] => [String c ""]
           | piece :: pieces => String c piece :: pieces
           end
  end.

Fixpoint strip_prefix (p s : string) : option string :=
  match p, s with
  | "", _ => Some s
  | String a p', String b s' =>
      if Ascii.eqb a b then strip_prefix p' s' else None
  | String _ _, "" => None
  end.

Definition chars (cs : list ascii) : string := string_of_list_ascii cs.

(** The white space [parseInt] skips (StrWhiteSpaceChar), in UTF-8:
    TAB LF VT FF CR SP, U+00A0, U+1680, U+2000..U+200A, U+2028, U+2029,
    U+202F, U+205F, U+3000, U+FEFF. *)
Definition js_whitespace : list string :=
  [ chars ["009"%char]; chars ["010"%char]; chars ["011"%char];
    chars ["012"%char]; chars ["013"%char]; " ";
    chars ["194"; "160"]%char; chars ["225"; "154"; "128"]%char ]
  ++ map (fun n => chars ["226"%char; "128"%char; ascii_of_nat (128 + n)])
         (seq 0 11)
  ++ [ chars ["226"; "128"; "168"]%char; chars ["226"; "128"; "169"]%char;
       chars ["226"; "128"; "175"]%char; chars ["226"; "129"; "159"]%char;
       chars ["227"; "128"; "128"]%char; chars ["239"; "187"; "191"]%char ].

Definition strip_one_ws (s : string) : option string :=
  list_find is_Some (map (fun ws => strip_prefix ws s) js_whitespace)
    ≫= snd.

Fixpoint trim_start (fuel : nat) (s : string) : string :=
  match fuel with
  | O => s
  | S fuel' =>
      match strip_one_ws s with
      | Some s' => trim_start fuel' s'
      | None => s
      end
  end.

Definition digit_val (c : ascii) : option Z :=
  let n := nat_of_ascii c in
  if ((48 <=? n) && (n <=? 57))%nat then Some (Z.of_nat n - 48) else None.

(** The value of the longest prefix of decimal digits; [acc] when there
    is none. *)
Fixpoint digits_prefix (acc : option Z) (s : string) : option Z :=
  match s with
  | "" => acc
  | String c s' =>
      match digit_val c with
      | Some d => digits_prefix (Some (10 * default 0 acc + d)) s'
      | None => acc
      end
  end.

(** [parseInt(s, 10)] on a string; [None] is NaN. *)
Definition parseInt10 (s : string) : option Z :=
  let s1 := trim_start (String.length s) s in
  let '(sign, s2) :=
    match s1 with
    | String "-" r => (-1, r)
    | String "+" r => (1, r)
    | _ => (1, s1)
    end in
  Z.mul sign <$> digits_prefix None s2.

(** ** JSON

    [JSON.stringify] of the records the store writes and [JSON.parse] of
    whatever a [.info] file holds.  A number is kept as the exact decimal
    [m * 10^e] of its literal. *)

#[warnings="-register-all"]
Inductive jsval : Type :=
  | JNull
  | JBool (b : bool)
  | JNum (m e : Z)
  | JStr (s : string)
  | JArr (elements : list jsval)
  | JObj (fields : list (string * jsval)).

Module Json.

(** *** Writing *)

Definition hex_digit (n : nat) : ascii :=
  default "0"%char (String.get n "0123456789abcdef").

(** QuoteJSONString, one character at a time: the quote, the backslash
    and the control characters are escaped. *)
Definition quote_char (c : ascii) : string :=
  let n := nat_of_ascii c in
  if Ascii.eqb c dquote then chars [backslash; dquote]
  else if Ascii.eqb c backslash then chars [backslash; backslash]
  else if (n =? 8)%nat then chars [backslash; "b"%char]
  else if (n =? 9)%nat then chars [backslash; "t"%char]
  else if (n =? 10)%nat then chars [backslash; "n"%char]
  else if (n =? 12)%nat then chars [backslash; "f"%char]
  else if (n =? 13)%nat then chars [backslash; "r"%char]
  else if (n <? 32)%nat then
    chars [backslash; "u"%char; "0"%char; "0"%char;
           hex_digit (n / 16); hex_digit (n mod 16)]
  else String c "".

Fixpoint quote_body (s : string) : string :=
  match s with
  | "" => ""
  | String c s' => quote_char c +:+ quote_body s'
  end.

Definition quote (s : string) : string :=
  String dquote (quote_body s) +:+ String dquote "".

Fixpoint join (sep : string) (l : list string) : string :=
  match l with
  | [] => ""
  | [x] => x
  | x :: rest => x +:+ sep +:+ join sep rest
  end.

(** An object whose properties are strings or [undefined]; the
    undefined ones are left out. *)
Definition stringify_record (props : list (string * option string)) : string :=
  "{" +:+ join ","
    (omap (fun '(k, v) => (fun s => quote k +:+ ":" +:+ quote s) <$> v) props)
  +:+ "}".

(** *** Reading *)

Definition is_ws (c : ascii) : bool :=
  let n := nat_of_ascii c in
  ((n =? 32) || (n =? 9) || (n =? 10) || (n =? 13))%nat.

Fixpoint skip_ws (s : string) : string :=
  match s with
  | String c s' => if is_ws c then skip_ws s' else s
  | "" => ""
  end.

Definition hex_val (c : ascii) : option Z :=
  let n := Z.of_nat (nat_of_ascii c) in
  if (48 <=? n) && (n <=? 57) then Some (n - 48)
  else if (97 <=? n) && (n <=? 102) then Some (n - 87)
  else if (65 <=? n) && (n <=? 70) then Some (n - 55)
  else None.

(** Four hexadecimal digits. *)
Definition hex4 (s : string) : option (Z * string) :=
  match s with
  | String a (String b (String c (String d r))) =>
      x1 ← hex_val a; x2 ← hex_val b; x3 ← hex_val c; x4 ← hex_val d;
      Some (((x1 * 16 + x2) * 16 + x3) * 16 + x4, r)
  | _ => None
  end.

Definition zchar (z : Z) : ascii := ascii_of_nat (Z.to_nat z).

(** UTF-8 of a code point (a lone surrogate is encoded like any other
    three-byte value). *)
Definition utf8 (cp : Z) : string :=
  if cp <? 0x80 then chars [zchar cp]
  else if cp <? 0x800 then
    chars [zchar (0xC0 + cp / 64); zchar (0x80 + cp mod 64)]
  else if cp <? 0x10000 then
    chars [zchar (0xE0 + cp / 4096); zchar (0x80 + (cp / 64) mod 64);
           zchar (0x80 + cp mod 64)]
  else
    chars [zchar (0xF0 + cp / 262144); zchar (0x80 + (cp / 4096) mod 64);
           zchar (0x80 + (cp / 64) mod 64); zchar (0x80 + cp mod 64)].

(** The code point after a [\u], joining a surrogate pair. *)
Definition unicode_escape (s : string) : option (string * string) :=
  '(hi, r) ← hex4 s;
  if (0xD800 <=? hi) && (hi <=? 0xDBFF) then
    match r with
    | String b (String u r') =>
        if Ascii.eqb b backslash && Ascii.eqb u "u" then
          match hex4 r' with
          | Some (lo, r'') =>
              if (0xDC00 <=? lo) && (lo <=? 0xDFFF) then
                Some (utf8 (0x10000 + (hi - 0xD800) * 1024 + (lo - 0xDC00)),
                      r'')
              else Some (utf8 hi, r)
          | None => Some (utf8 hi, r)
          end
        else Some (utf8 hi, r)
    | _ => Some (utf8 hi, r)
    end
  else Some (utf8 hi, r).

(** The characters of a string literal after its opening quote. *)
Fixpoint string_body (fuel : nat) (s : string) : option (string * string) :=
  match fuel with
  | O => None
  | S fuel' =>
      match s with
      | "" => None
      | String c r =>
          if Ascii.eqb c dquote then Some ("", r)
          else if Ascii.eqb c backslash then
            match r with
            | "" => None
            | String e r' =>
                let simple (x : ascii) :=
                  '(body, rest) ← string_body fuel' r';
                  Some (String x body, rest) in
                if Ascii.eqb e dquote then simple dquote
                else if Ascii.eqb e backslash then simple backslash
                else if Ascii.eqb e "/" then simple "/"%char
                else if Ascii.eqb e "b" then simple "008"%char
                else if Ascii.eqb e "f" then simple "012"%char
                else if Ascii.eqb e "n" then simple "010"%char
                else if Ascii.eqb e "r" then simple "013"%char
                else if Ascii.eqb e "t" then simple "009"%char
                else if Ascii.eqb e "u" then
                  '(cs, r'') ← unicode_escape r';
                  '(body, rest) ← string_body fuel' r'';
                  Some (cs +:+ body, rest)
                else None
            end
          else if (nat_of_ascii c <? 32)%nat then None
          else
            '(body, rest) ← string_body fuel' r;
            Some (String c body, rest)
      end
  end.

(** A run of decimal digits: its value, its length, and the rest. *)
Fixpoint digits (s : string) (acc : Z) (n : nat) : Z * nat * string :=
  match s with
  | String c r =>
      match digit_val c with
      | Some d => digits r (10 * acc + d) (S n)
      | None => (acc, n, s)
      end
  | "" => (acc, n, "")
  end.

(** A number literal: an optional minus, an integer part without a
    superfluous leading zero, an optional fraction, an optional
    exponent. *)
Definition number (s : string) : option (jsval * string) :=
  let '(sign, s1) :=
    match s with String "-" r => (-1, r) | _ => (1, s) end in
  let '(ip, n, s2) := digits s1 0 0 in
  let leading_zero :=
    match s1 with String "0" _ => true | _ => false end in
  if (n =? 0)%nat || (leading_zero && (1 <? n)%nat) then None
  else
    '(m, fl, s3) ←
      match s2 with
      | String "." r =>
          let '(m, k, r') := digits r ip 0 in
          if (k =? 0)%nat then None else Some (m, Z.of_nat k, r')
      | _ => Some (ip, 0, s2)
      end;
    '(ex, s4) ←
      match s3 with
      | String c r =>
          if Ascii.eqb c "e" || Ascii.eqb c "E" then
            let '(esign, r1) :=
              match r with
              | String "-" r1 => (-1, r1)
              | String "+" r1 => (1, r1)
              | _ => (1, r)
              end in
            let '(ev, k, r2) := digits r1 0 0 in
            if (k =? 0)%nat then None else Some (esign * ev, r2)
          else Some (0, s3)
      | "" => Some (0, s3)
      end;
    Some (JNum (sign * m) (ex - fl), s4).

Fixpoint value (fuel : nat) (s : string) : option (jsval * string) :=
  match fuel with
  | O => None
  | S fuel' =>
      match skip_ws s with
      | String "{" r =>
          match skip_ws r with
          | String "}" r' => Some (JObj [], r')
          | _ => members fuel' r []
          end
      | String "[" r =>
          match skip_ws r with
          | String "]" r' => Some (JArr [], r')
          | _ => elements fuel' r []
          end
      | String "t" (String "r" (String "u" (String "e" r))) =>
          Some (JBool true, r)
      | String "f" (String "a" (String "l" (String "s" (String "e" r)))) =>
          Some (JBool false, r)
      | String "n" (String "u" (String "l" (String "l" r))) =>
          Some (JNull, r)
      | String c r =>
          if Ascii.eqb c dquote then
            '(str, r') ← string_body (String.length r) r;
            Some (JStr str, r')
          else number (String c r)
      | "" => None
      end
  end
with elements (fuel : nat) (s : string) (acc : list jsval)
    : option (jsval * string) :=
  match fuel with
  | O => None
  | S fuel' =>
      '(v, r) ← value fuel' s;
      match skip_ws r with
      | String "," r' => elements fuel' r' (v :: acc)
      | String "]" r' => Some (JArr (rev (v :: acc)), r')
      | _ => None
      end
  end
with members (fuel : nat) (s : string) (acc : list (string * jsval))
    : option (jsval * string) :=
  match fuel with
  | O => None
  | S fuel' =>
      match skip_ws s with
      | String c r =>
          if Ascii.eqb c dquote then
            '(k, r1) ← string_body (String.length r) r;
            match skip_ws r1 with
            | String ":" r2 =>
                '(v, r3) ← value fuel' r2;
                match skip_ws r3 with
                | String "," r4 => members fuel' r4 ((k, v) :: acc)
                | String "}" r4 => Some (JObj (rev ((k, v) :: acc)), r4)
                | _ => None
                end
            | _ => None
            end
          else None
      | "" => None
      end
  end.

(** [JSON.parse]; [None] when it throws a SyntaxError. *)
Definition parse (s : string) : option jsval :=
  '(v, r) ← value (2 * String.length s + 2) s;
  match skip_ws r with
  | "" => Some v
  | _ => None
  end.

End Json.

(** *** Coercions of parsed values *)

(** ToBoolean. *)
Definition truthy (v : jsval) : bool :=
  match v with
  | JNull => false
  | JBool b => b
  | JNum m _ => negb (m =? 0)
  | JStr s => negb (String.eqb s "")
  | JArr _ | JObj _ => true
  end.

(** [v.key] for a property [key] that no prototype defines: the last
    binding of [key] in an object, [undefined] ([None]) otherwise. *)
Definition get_prop (v : jsval) (key : string) : option jsval :=
  match v with
  | JObj fields =>
      snd <$> List.find (fun kv => String.eqb (fst kv) key) (rev fields)
  | _ => None
  end.

Definition leading_digit (a : Z) : Z :=
  match pretty a with
  | String c _ => default 0 (digit_val c)
  | "" => 0
  end.

(** [parseInt(String(x), 10)] for a number [m * 10^e]: the integer part
    in decimal notation, the first digit in exponent notation (at and
    above 1e21, below 1e-6). *)
Definition parseInt_number (m e : Z) : Z :=
  let a := Z.abs m in
  let shown :=
    if a =? 0 then 0
    else if 0 <=? e then
      if a * 10 ^ e <? 10 ^ 21 then a * 10 ^ e else leading_digit a
    else if a * 10 ^ 6 <? 10 ^ (- e) then leading_digit a
    else if a / 10 ^ (- e) <? 10 ^ 21 then a / 10 ^ (- e)
    else leading_digit a in
  Z.sgn m * shown.

(** [parseInt(x, 10)] for a value of any type; [None] is NaN.  An array
    is converted through its first element, the comma after it ending
    the digits. *)
Fixpoint parseInt_value (v : jsval) : option Z :=
  match v with
  | JStr s => parseInt10 s
  | JNum m e => Some (parseInt_number m e)
  | JArr (x :: _) => parseInt_value x
  | JArr [] | JNull | JBool _ | JObj _ => None
  end.

Definition parseInt (x : option jsval) : option Z := x ≫= parseInt_value.

(** ** The file system

    A flat name space of regular files and directories, keyed by path
    string: two paths are one file when they are the same string.  Besides the
    failures the name space itself causes (a missing file, a directory
    where a file is expected) a call fails when the environment says so:
    [io call] is the error code the operating system answers [call]
    with, if any (permissions, a full disk, ...). *)

Inductive node : Type :=
  | RegularFile (content : list byte)
  | Directory.

Abbreviation disk := (gmap string node).

Inductive errno : Type := ENOENT | EISDIR | EACCES | ENOSPC | EIO | EMFILE.

#[global] Instance errno_eq_dec : EqDecision errno.
Proof. solve_decision. Defined.

Inductive syscall : Type :=
  | SysOpen (path : string)
  | SysClose (path : string)
  | SysWriteFileAtomic (path : string)
  | SysCreateWriteStream (path : string)
  | SysCreateReadStream (path : string)
  | SysReadFile (path : string)
  | SysStat (path : string)
  | SysUnlink (path : string).

Definition faults : Type := syscall → option errno.

Definition no_faults : faults := λ _, None.

Record Stats : Type := { size : nat; isDirectory : bool }.

(** [fs.open(path, 'w')]: create the file or truncate it. *)
Definition fs_open_w (io : faults) (path : string) (d : disk) : errno + disk :=
  match io (SysOpen path) with
  | Some err => inl err
  | None =>
      match d !! path with
      | Some Directory => inl EISDIR
      | _ => inr (<[path := RegularFile []]> d)
      end
  end.

Definition fs_close (io : faults) (path : string) : option errno :=
  io (SysClose path).

(** [writeFileAtomic.sync(path, data)]: the data goes to a temporary file
    that is renamed to [path]; on failure the temporary file is removed. *)
Definition writeFileAtomic_sync (io : faults) (path : string)
    (data : list byte) (d : disk) : errno + disk :=
  match io (SysWriteFileAtomic path) with
  | Some err => inl err
  | None =>
      match d !! path with
      | Some Directory => inl EISDIR
      | _ => inr (<[path := RegularFile data]> d)
      end
  end.

Definition fs_readFileSync (io : faults) (path : string) (d : disk)
    : errno + list byte :=
  match io (SysReadFile path) with
  | Some err => inl err
  | None =>
      match d !! path with
      | Some (RegularFile content) => inr content
      | Some Directory => inl EISDIR
      | None => inl ENOENT
      end
  end.

Definition fs_stat (io : faults) (path : string) (d : disk) : errno + Stats :=
  match io (SysStat path) with
  | Some err => inl err
  | None =>
      match d !! path with
      | Some (RegularFile content) =>
          inr {| size := length content; isDirectory := false |}
      | Some Directory => inr {| size := 0; isDirectory := true |}
      | None => inl ENOENT
      end
  end.

(** [fs.unlink(path, callback)] with a callback that ignores the error. *)
Definition fs_unlink (io : faults) (path : string) (d : disk) : disk :=
  match io (SysUnlink path), d !! path with
  | None, Some (RegularFile _) => delete path d
  | _, _ => d
  end.

Inductive open_flags : Type :=
  | flags_w
  | flags_rplus (start : nat).

(** The bytes of a file after [data] is written at position [start]: a
    gap past the end reads as zeros, the bytes after the written range
    stay, and writing nothing changes nothing. *)
Definition pwrite (old : list byte) (start : nat) (data : list byte) : list byte :=
  match data with
  | [] => old
  | _ =>
      take start old ++ replicate (start - length old) x00 ++ data
        ++ drop (start + length data) old
  end.

(** A write stream that is opened on [path], receives [data] and is
    ended.  With ['w'] the file is created or truncated; with ['r+'] it
    must exist and is written from [start] on.  A stream that cannot be
    opened emits ['error'] and never ['finish']. *)
Definition createWriteStream (io : faults) (path : string) (flags : open_flags)
    (data : list byte) (d : disk) : errno + disk :=
  match io (SysCreateWriteStream path) with
  | Some err => inl err
  | None =>
      match d !! path, flags with
      | Some Directory, _ => inl EISDIR
      | None, flags_rplus _ => inl ENOENT
      | Some (RegularFile old), flags_rplus start =>
          inr (<[path := RegularFile (pwrite old start data)]> d)
      | _, flags_w => inr (<[path := RegularFile data]> d)
      end
  end.

(** A read stream drained to its end; [None] when it emits ['error']. *)
Definition createReadStream (io : faults) (path : string) (d : disk)
    : option (list byte) :=
  match io (SysCreateReadStream path), d !! path with
  | None, Some (RegularFile content) => Some content
  | _, _ => None
  end.

(** ** The store

    Each operation takes the disk it starts from and the failures of the
    environment, and returns how its promise ends, the disk it leaves and
    the events it emits.  A request is received to its end, and a stream
    either fails to open or carries all of its bytes. *)

(** Modelled from the spec: [lib/constants.js] is not part of the
    sources.  [ERRORS] holds one value per failure the store reports by
    name; an error of the file system that is passed on as it came is
    [IoError]. *)
Inductive error : Type :=
  | INVALID_LENGTH
  | FILE_WRITE_ERROR
  | CHECKSUM_ALGORITHM_UNSUPPORTED
  | CHECKSUM_MISMATCH
  | FILE_NOT_FOUND
  | FILE_NO_LONGER_EXISTS
  | IoError (code : errno).

#[global] Instance error_eq_dec : EqDecision error.
Proof. solve_decision. Defined.

(** Modelled from the spec: the failure kinds of its error taxonomy, and
    the kind each error value stands for. *)
Inductive kind : Type :=
  | InvalidLength
  | IdentifierGenerationError
  | StorageWriteError
  | ChecksumAlgorithmUnsupported
  | ChecksumMismatch
  | NotFound
  | ArtifactVanished
  | IoFailure.

Definition error_kind (e : error) : kind :=
  match e with
  | INVALID_LENGTH => InvalidLength
  | FILE_WRITE_ERROR => StorageWriteError
  | CHECKSUM_ALGORITHM_UNSUPPORTED => ChecksumAlgorithmUnsupported
  | CHECKSUM_MISMATCH => ChecksumMismatch
  | FILE_NOT_FOUND => NotFound
  | FILE_NO_LONGER_EXISTS => ArtifactVanished
  | IoError _ => IoFailure
  end.

(** Modelled from the spec: [lib/models/File.js] is not part of the
    sources.  The upload record: the identifier and the three headers it
    was created from, each a string or [undefined]. *)
Record File : Type := new_File {
  id : string;
  upload_length : option string;
  upload_defer_length : option string;
  upload_metadata : option string;
}.

(** [JSON.stringify(file)]. *)
Definition JSON_stringify (file : File) : string :=
  Json.stringify_record
    [ ("id", Some (id file));
      ("upload_length", upload_length file);
      ("upload_defer_length", upload_defer_length file);
      ("upload_metadata", upload_metadata file) ].

(** An incoming request: its headers by lower-case name, and the buffers
    its ['data'] events deliver before it ends. *)
Record request : Type := {
  headers : gmap string string;
  body : list (list byte);
}.

(** The store's options: the directory, and the naming function that
    [generateFileName] of the base class (not part of the sources)
    applies to the request; [None] when it throws. *)
Record FileStore : Type := {
  directory : string;
  namingFunction : request → option string;
}.

Definition generateFileName (store : FileStore) (req : request) : option string :=
  namingFunction store req.

Inductive event : Type :=
  | EVENT_FILE_CREATED (file : File)
  | EVENT_UPLOAD_COMPLETE (file : jsval).

(** How a promise ends; [Pending] when it is never settled (a stream
    without an ['error'] listener failed). *)
Inductive promise (A : Type) : Type :=
  | Resolved (value : A)
  | Rejected (reason : error)
  | Pending.
Arguments Resolved {A} value.
Arguments Rejected {A} reason.
Arguments Pending {A}.

(** What a call leaves behind: its promise, the disk once the call has
    come to rest, and the events it emitted, in order. *)
Record run (A : Type) : Type := Run {
  settled : promise A;
  disk_of : disk;
  emitted : list event;
}.
Arguments Run {A} settled disk_of emitted.
Arguments settled {A} r.
Arguments disk_of {A} r.
Arguments emitted {A} r.

Definition filePath (store : FileStore) (file_id : string) : string :=
  directory store +:+ "/" +:+ file_id.

Definition infoPath (store : FileStore) (file_id : string) : string :=
  directory store +:+ "/" +:+ file_id +:+ ".info".

(** [getFileInfo]: the parsed [.info] file, [null] when it cannot be read
    or parsed. *)
Definition getFileInfo (store : FileStore) (io : faults) (file_id : string)
    (d : disk) : jsval :=
  match fs_readFileSync io (infoPath store file_id) d with
  | inr data => default JNull (Json.parse (string_of_list_byte data))
  | inl _ => JNull
  end.

Definition writeFileInfo (store : FileStore) (io : faults) (file : File)
    (d : disk) : errno + disk :=
  writeFileAtomic_sync io (infoPath store (id file))
    (bytes (JSON_stringify file)) d.

Definition create (store : FileStore) (io : faults) (req : request) (d : disk)
    : run File :=
  let upload_length := headers req !! "upload-length" in
  let upload_defer_length := headers req !! "upload-defer-length" in
  let upload_metadata := headers req !! "upload-metadata" in
  if bool_decide (upload_length = None) && bool_decide (upload_defer_length = None)
  then Run (Rejected INVALID_LENGTH) d []
  else
    match generateFileName store req with
    | None => Run (Rejected FILE_WRITE_ERROR) d []
    | Some file_id =>
        let file :=
          new_File file_id upload_length upload_defer_length upload_metadata in
        let filepath := filePath store file_id in
        match fs_open_w io filepath d with
        | inl err => Run (Rejected (IoError err)) d []
        | inr d1 =>
            match writeFileInfo store io file d1 with
            | inl infoWriteError => Run (Rejected (IoError infoWriteError)) d1 []
            | inr d2 =>
                match fs_close io filepath with
                | Some exception => Run (Rejected (IoError exception)) d2 []
                | None => Run (Resolved file) d2 [EVENT_FILE_CREATED file]
                end
            end
        end
    end.

(** [calculateSHA1File]: the base64 SHA-1 digest of the file; [None] when
    the read stream fails, which leaves the promise pending. *)
Definition calculateSHA1File (io : faults) (fn : string) (d : disk)
    : option string :=
  sha1_base64 <$> createReadStream io fn d.

(** The checksum test of [write], made once the body is staged: the
    error to reject with, if any; [inl tt] when the digest cannot be
    computed. *)
Definition verify_checksum (io : faults) (req : request)
    (tempchunkpath : string) (d : disk) : unit + option error :=
  match headers req !! "upload-checksum" with
  | None => inr None
  | Some upload_checksum =>
      let upload_checksum_algorithm := split_on " " upload_checksum !! 0%nat in
      let upload_checksum_value := split_on " " upload_checksum !! 1%nat in
      if bool_decide (upload_checksum_algorithm ≠ Some "sha1")
      then inr (Some CHECKSUM_ALGORITHM_UNSUPPORTED)
      else
        match calculateSHA1File io tempchunkpath d with
        | None => inl tt
        | Some sha1hash =>
            if bool_decide (upload_checksum_value ≠ Some sha1hash)
            then inr (Some CHECKSUM_MISMATCH)
            else inr None
        end
  end.

Definition received (req : request) : nat := sum_list (length <$> body req).

Definition write (store : FileStore) (io : faults) (req : request)
    (file_id : string) (offset : nat) (d : disk) : run nat :=
  let path := filePath store file_id in
  let tempchunkpath := path +:+ ".tmp" in
  let new_offset := received req in
  match createWriteStream io tempchunkpath flags_w (concat (body req)) d with
  | inl _ => Run (Rejected FILE_WRITE_ERROR) d []
  | inr d1 =>
      match verify_checksum io req tempchunkpath d1 with
      | inl _ => Run Pending d1 []
      | inr (Some failure) => Run (Rejected failure) d1 []
      | inr None =>
          match createReadStream io tempchunkpath d1 with
          | None => Run Pending d1 []
          | Some chunk =>
              match createWriteStream io path (flags_rplus offset) chunk d1 with
              | inl _ => Run (Rejected FILE_WRITE_ERROR) d1 []
              | inr d2 =>
                  let d3 := fs_unlink io tempchunkpath d2 in
                  let offset := (offset + new_offset)%nat in
                  let config := getFileInfo store io file_id d2 in
                  Run (Resolved offset) d3
                    (if truthy config
                        && bool_decide (parseInt (get_prop config "upload_length")
                                        = Some (Z.of_nat offset))
                     then [EVENT_UPLOAD_COMPLETE config] else [])
              end
          end
      end
  end.

(** [Object.assign(stats, config)]: the status with the own properties
    of [assigned] copied onto it; [null] has none. *)
Record OffsetView : Type := Object_assign {
  stats : Stats;
  assigned : jsval;
}.

Definition getOffset (store : FileStore) (io : faults) (file_id : string)
    (d : disk) : promise OffsetView :=
  let config := getFileInfo store io file_id d in
  let file_path := filePath store file_id in
  match fs_stat io file_path d with
  | inl code =>
      if bool_decide (code = ENOENT) && truthy config
      then Rejected FILE_NO_LONGER_EXISTS
      else if bool_decide (code = ENOENT) then Rejected FILE_NOT_FOUND
      else Rejected (IoError code)
  | inr st =>
      if isDirectory st then Rejected FILE_NOT_FOUND
      else Resolved (Object_assign st config)
  end.

(** A promise rejected with an error of kind [k]. *)
Definition rejected_with {A} (k : kind) (p : promise A) : Prop :=
  ∃ e, p = Rejected e ∧ error_kind e = k.

Definition fails_with {A} (k : kind) (r : run A) : Prop :=
  rejected_with k (settled r).

(** *** The lifetime of an upload: successive [write] calls *)

Record call : Type := {
  call_io : faults;
  call_req : request;
  call_offset : nat;
}.

(** The offset a call reaches if it succeeds. *)
Definition target (c : call) : nat :=
  (call_offset c + received (call_req c))%nat.

(** The calls are made one after the other, each on the disk the
    previous one left. *)
Fixpoint writes (store : FileStore) (file_id : string) (calls : list call)
    (d : disk) : list (run nat) :=
  match calls with
  | [] => []
  | c :: rest =>
      let r := write store (call_io c) (call_req c) file_id (call_offset c) d in
      r :: writes store file_id rest (disk_of r)
  end.

Definition is_complete (e : event) : bool :=
  match e with
  | EVENT_UPLOAD_COMPLETE _ => true
  | EVENT_FILE_CREATED _ => false
  end.

Definition completions (rs : list (run nat)) : nat :=
  length (List.filter is_complete (concat (emitted <$> rs))).

(** The declared length as [write] reads it from the metadata artifact. *)
Definition declared_length (store : FileStore) (file_id : string) (d : disk)
    : option Z :=
  let config := getFileInfo store no_faults file_id d in
  if truthy config then parseInt (get_prop config "upload_length") else None.

(** Successive calls that each continue where the previous one stopped
    and deliver at least one byte. *)
Fixpoint contiguous (offset : nat) (calls : list call) : Prop :=
  match calls with
  | [] => True
  | c :: rest =>
      call_offset c = offset ∧ (0 < received (call_req c))%nat
      ∧ contiguous (target c) rest
  end.

(** The staging artifact can be written: the body of a call is received
    into it. *)
Definition staged (store : FileStore) (io : faults) (file_id : string)
    (d : disk) : Prop :=
  io (SysCreateWriteStream (filePath store file_id +:+ ".tmp")) = None
  ∧ d !! (filePath store file_id +:+ ".tmp") ≠ Some Directory.

Definition is_resolved {A} (p : promise A) : bool :=
  match p with Resolved _ => true | _ => false end.

Fixpoint last_char (s : string) : option ascii :=
  match s with
  | "" => None
  | String c "" => Some c
  | String _ s' => last_char s'
  end.

(** *** The metadata record as [getFileInfo] reads it back *)

(** One property of a serialized record. *)
Definition field (kv : string * string) : string :=
  Json.quote kv.1 +:+ ":" +:+ Json.quote kv.2.

Definition as_property (kv : string * string) : string * jsval :=
  (kv.1, JStr kv.2).

(** The properties of a [File] that are not [undefined], in order. *)
Definition File_properties (file : File) : list (string * string) :=
  ("id", id file)
  :: omap (λ '(k, v), pair k <$> v)
       [ ("upload_length", upload_length file);
         ("upload_defer_length", upload_defer_length file);
         ("upload_metadata", upload_metadata file) ].

Definition File_object (file : File) : jsval :=
  JObj (as_property <$> File_properties file).

(** The record [create] builds for a request and an identifier. *)
Definition created_file (req : request) (file_id : string) : File :=
  new_File file_id (headers req !! "upload-length")
    (headers req !! "upload-defer-length") (headers req !! "upload-metadata").

(** *** The merged view of [getOffset] *)

(** The [size] property of the object [getOffset] resolves with.
    [Object.assign(stats, config)] copies the own properties of the
    record onto the status, so a [size] property of the record replaces
    the size of the file. *)
Definition reported_size (view : OffsetView) : jsval :=
  default (JNum (Z.of_nat (size (stats view))) 0)
    (get_prop (assigned view) "size").

(** *** Identifiers that are one path component *)

Fixpoint slashless (s : string) : bool :=
  match s with
  | "" => true
  | String c s' => negb (Ascii.eqb c "/") && slashless s'
  end.

(** The disk is keyed by path strings.  For identifiers that are a
    single name (no separator, not empty, not a dot entry) the paths
    [<dir>/<id>], [<dir>/<id>.info] and [<dir>/<id>.tmp] are entries of
    the one directory, and two of them are the same file exactly when
    they are the same string; an identifier such as [./u] names the file
    of [u] by another string. *)
Definition plain_name (s : string) : Prop :=
  s ≠ "" ∧ s ≠ "." ∧ s ≠ ".." ∧ slashless s = true.

(** *** The checksum declaration *)

Fixpoint spaceless (s : string) : bool :=
  match s with
  | "" => true
  | String c s' => negb (Ascii.eqb c " ") && spaceless s'
  end.

(** No declaration, or one whose first piece is "sha1" and whose second
    piece is the digest of the body. *)
Definition checksum_ok (req : request) : Prop :=
  match headers req !! "upload-checksum" with
  | None => True
  | Some upload_checksum =>
      split_on " " upload_checksum !! 0%nat = Some "sha1"
      ∧ split_on " " upload_checksum !! 1%nat
        = Some (sha1_base64 (concat (body req)))
  end.

(** *** The constructor *)

(** The options the constructor reads; the base class (not part of the
    sources) has checked that [path] is there. *)
Record options : Type := {
  directory_option : option string;
  path_option : string;
  namingFunction_option : request → option string;
}.

(** [s.replace(/^\//, '')]. *)
Definition strip_leading_slash (s : string) : string :=
  match s with
  | String "/" r => r
  | _ => s
  end.

(** [options.directory || options.path.replace(/^\//, '')]: an empty
    string is falsy like [undefined]. *)
Definition new_directory (o : options) : string :=
  match directory_option o with
  | Some dir =>
      if String.eqb dir "" then strip_leading_slash (path_option o) else dir
  | None => strip_leading_slash (path_option o)
  end.

Definition extensions : list string :=
  ["creation"; "creation-defer-length"; "checksum"].

Definition extensionHeaders : gmap string string :=
  {[ "Tus-Checksum-Algorithm" := "sha1" ]}.

(** What [fs.mkdir] can answer: the path exists already, or another
    error of the operating system. *)
Inductive mkdir_error : Type :=
  | EEXIST
  | MkdirError (code : errno).

Definition fs_mkdir (fault : option errno) (path : string) (d : disk)
    : mkdir_error + disk :=
  match fault with
  | Some err => inl (MkdirError err)
  | None =>
      match d !! path with
      | Some _ => inl EEXIST
      | None => inr (<[path := Directory]> d)
      end
  end.

(** [_checkOrCreateDirectory]: the error thrown from the callback, if
    any, and the disk. *)
Definition _checkOrCreateDirectory (store : FileStore) (fault : option errno)
    (d : disk) : option mkdir_error * disk :=
  match fs_mkdir fault (directory store) d with
  | inl EEXIST => (None, d)
  | inl error => (Some error, d)
  | inr d' => (None, d')
  end.

Definition new_FileStore (o : options) (fault : option errno) (d : disk)
    : FileStore * (option mkdir_error * disk) :=
  let store :=
    {| directory := new_directory o;
       namingFunction := namingFunction_option o |} in
  (store, _checkOrCreateDirectory store fault d).

(** *** A store and requests to run the calls on *)

Definition demo_store : FileStore :=
  {| directory := "files"; namingFunction := λ _, Some "u" |}.

(** A store whose naming function throws. *)
Definition unnamed_store : FileStore :=
  {| directory := "files"; namingFunction := λ _, None |}.

Definition request_of (hs : list (string * string)) (chunks : list string)
    : request :=
  {| headers := list_to_map hs; body := bytes <$> chunks |}.

(** The disk after an upload of declared length 10 was created. *)
Definition created : disk :=
  disk_of (create demo_store no_faults
             (request_of [("upload-length", "10")] []) ∅).

(** An environment in which the metadata cannot be persisted. *)
Definition full_disk : faults :=
  λ c, match c with SysWriteFileAtomic _ => Some ENOSPC | _ => None end.

(** A disk with the data artifact of "u" and a truncated [.info] file. *)
Definition orphan : disk :=
  {[ "files/u" := RegularFile (bytes "abc");
     "files/u.info" := RegularFile (bytes "{") ]}.

Definition plain_call (chunks : list string) (offset : nat) : call :=
  {| call_io := no_faults; call_req := request_of [] chunks;
     call_offset := offset |}.

(** The request that created [created], and the record it made. *)
Definition creation : request := request_of [("upload-length", "10")] [].

Definition demo_file : File := new_File "u" (Some "10") None None.

Definition demo_options : options :=
  {| directory_option := None; path_option := "/files";
     namingFunction_option := λ _, Some "u" |}.

(** The disk after "abcd" was written to the upload. *)
Definition written : disk :=
  disk_of (write demo_store no_faults (request_of [] ["abcd"]) "u" 0 created).

(** The disk after a write to the upload was rejected for its digest. *)
Definition rejected : disk :=
  disk_of (write demo_store no_faults
             (request_of [("upload-checksum", "sha1 AAAA")] ["abc"]) "u" 0
             created).

(** ** The runtime model on known values *)

Example sha1_abc : sha1_base64 (bytes "abc") = "qZk+NkcGgWq6PiVxeFDCbJzQ2J0=".
Proof. vm_compute. reflexivity. Qed.

Example sha1_empty : sha1_base64 [] = "2jmj7l5rSw0yVb/vlWAYkK/YBwk=".
Proof. vm_compute. reflexivity. Qed.

Example sha1_two_blocks :
  sha1_base64 (bytes "abcdbcdecdefdefgefghfghighijhijkijkljklmklmnlmnomnopnopq")
  = "hJg+RBw70m66rkqh+VEp5eVGcPE=".
Proof. vm_compute. reflexivity. Qed.

Example parseInt_10 : parseInt10 "10" = Some 10.
Proof. reflexivity. Qed.

Example parseInt_ws : parseInt10 "  -42px" = Some (-42).
Proof. reflexivity. Qed.

Example parseInt_nan : parseInt10 "x1" = None.
Proof. reflexivity. Qed.

Example split_checksum : split_on " " "sha1 abc= x" = ["sha1"; "abc="; "x"].
Proof. reflexivity. Qed.

Example split_none : split_on " " "sha1" = ["sha1"].
Proof. reflexivity. Qed.

Example json_parse_object :
  Json.parse (chars [ "{"; dquote; "a"; dquote; ":"; " "; "["; "1"; ",";
                      "t"; "r"; "u"; "e"; ","; "n"; "u"; "l"; "l"; "]"; "}" ]%char)
  = Some (JObj [("a", JArr [JNum 1 0; JBool true; JNull])]).
Proof. reflexivity. Qed.

Example json_parse_number : Json.parse "-12.50e3" = Some (JNum (-1250) 1).
Proof. reflexivity. Qed.

Example json_parse_truncated : Json.parse "{" = None.
Proof. reflexivity. Qed.

Example json_parse_empty : Json.parse "" = None.
Proof. reflexivity. Qed.

Example json_parse_trailing : Json.parse "[1] x" = None.
Proof. reflexivity. Qed.

Example json_parse_nested : Json.parse "[[[[]]],[[1]]]"
  = Some (JArr [JArr [JArr [JArr []]]; JArr [JArr [JNum 1 0]]]).
Proof. reflexivity. Qed.

(** ** Paths *)

Lemma append_assoc (s1 s2 s3 : string) :
  (s1 +:+ s2) +:+ s3 = s1 +:+ (s2 +:+ s3).
Proof.
  induction s1 as [|c s1 IH]; [done |].
  change (String c ((s1 +:+ s2) +:+ s3) = String c (s1 +:+ (s2 +:+ s3))).
  by rewrite IH.
Qed.

Lemma append_length (s1 s2 : string) :
  String.length (s1 +:+ s2) = (String.length s1 + String.length s2)%nat.
Proof.
  induction s1 as [|c s1 IH]; [done |].
  change (S (String.length (s1 +:+ s2))
          = S (String.length s1 + String.length s2)).
  by rewrite IH.
Qed.

Lemma append_ne_self (s t : string) : t ≠ "" → s +:+ t ≠ s.
Proof.
  intros Ht Heq. apply (f_equal String.length) in Heq.
  rewrite append_length in Heq. destruct t; [done | simpl in Heq; lia].
Qed.

Lemma infoPath_filePath (store : FileStore) (file_id : string) :
  infoPath store file_id = filePath store file_id +:+ ".info".
Proof. unfold infoPath, filePath. by rewrite !append_assoc. Qed.

Lemma tmp_ne_filePath (store : FileStore) (file_id : string) :
  filePath store file_id +:+ ".tmp" ≠ filePath store file_id.
Proof. by apply append_ne_self. Qed.

Lemma infoPath_ne_filePath (store : FileStore) (file_id : string) :
  infoPath store file_id ≠ filePath store file_id.
Proof. rewrite infoPath_filePath. by apply append_ne_self. Qed.

Lemma infoPath_ne_tmp (store : FileStore) (file_id : string) :
  infoPath store file_id ≠ filePath store file_id +:+ ".tmp".
Proof.
  rewrite infoPath_filePath. intros Heq.
  by apply (inj (String.append _)) in Heq.
Qed.

Lemma last_char_append (s t : string) :
  t ≠ "" → last_char (s +:+ t) = last_char t.
Proof.
  intros Ht. induction s as [|c s IH]; [done |].
  change (last_char (String c (s +:+ t)) = last_char t).
  simpl. rewrite IH.
  destruct (s +:+ t) eqn:Heq; [| done].
  apply (f_equal String.length) in Heq. rewrite append_length in Heq.
  destruct t; [done | simpl in Heq; lia].
Qed.

(** No metadata artifact is the staging artifact of an upload. *)
Lemma infoPath_ne_any_tmp (store : FileStore) (file_id other : string) :
  infoPath store other ≠ filePath store file_id +:+ ".tmp".
Proof.
  rewrite infoPath_filePath. intros Heq.
  apply (f_equal last_char) in Heq.
  by rewrite !last_char_append in Heq.
Qed.

Create HintDb paths.
#[local] Hint Resolve tmp_ne_filePath infoPath_ne_filePath infoPath_ne_tmp
  infoPath_ne_any_tmp : paths.

(** ** What [write] touches *)

(** [write] changes no path but the data artifact and the staging
    artifact of its identifier. *)
Lemma write_frame (store : FileStore) (io : faults) (req : request)
    (file_id : string) (offset : nat) (d : disk) (p : string) :
  p ≠ filePath store file_id →
  p ≠ filePath store file_id +:+ ".tmp" →
  disk_of (write store io req file_id offset d) !! p = d !! p.
Proof.
  intros Hp Ht. unfold write, createWriteStream, fs_unlink.
  repeat case_match; simplify_eq/=; by simplify_map_eq.
Qed.

(** A call that does not resolve leaves the data artifact as it was. *)
Lemma write_unresolved_data (store : FileStore) (io : faults) (req : request)
    (file_id : string) (offset : nat) (d : disk) :
  (∀ v, settled (write store io req file_id offset d) ≠ Resolved v) →
  disk_of (write store io req file_id offset d) !! filePath store file_id
  = d !! filePath store file_id.
Proof.
  pose proof (tmp_ne_filePath store file_id) as Hne.
  unfold write, createWriteStream, fs_unlink. intros Hno.
  repeat case_match; simplify_eq/=; try by simplify_map_eq.
  all: by destruct (Hno _ eq_refl).
Qed.

Lemma getFileInfo_ext (store : FileStore) (io : faults) (file_id : string)
    (d d' : disk) :
  d' !! infoPath store file_id = d !! infoPath store file_id →
  getFileInfo store io file_id d' = getFileInfo store io file_id d.
Proof. intros H. unfold getFileInfo, fs_readFileSync. by rewrite H. Qed.

Lemma pwrite_read_back (old : list byte) (start : nat) (data : list byte) :
  take (length data) (drop start (pwrite old start data)) = data.
Proof.
  unfold pwrite. destruct data as [|b data]; [done |].
  set (new := b :: data).
  rewrite (app_assoc (take start old)).
  rewrite drop_app_length'.
  - by rewrite take_app_length.
  - rewrite length_app, length_take, length_replicate. lia.
Qed.

Lemma staged_createWriteStream (store : FileStore) (io : faults)
    (req : request) (file_id : string) (d : disk) :
  staged store io file_id d →
  createWriteStream io (filePath store file_id +:+ ".tmp") flags_w
    (concat (body req)) d
  = inr (<[filePath store file_id +:+ ".tmp" :=
             RegularFile (concat (body req))]> d).
Proof.
  intros [Hio Hdir]. unfold createWriteStream. rewrite Hio.
  by destruct (d !! (filePath store file_id +:+ ".tmp")) as [[]|].
Qed.

(** ** Claims about [write] *)

(** The metadata artifact is put there by [create]. *)
Lemma create_persists_metadata (store : FileStore) (io : faults)
    (req : request) (d : disk) (file : File) :
  settled (create store io req d) = Resolved file →
  disk_of (create store io req d) !! infoPath store (id file)
  = Some (RegularFile (bytes (JSON_stringify file))).
Proof.
  unfold create, writeFileInfo, writeFileAtomic_sync. intros Hres.
  repeat case_match; simplify_eq/=; by simplify_map_eq.
Qed.

(** C8.  A checksum declaration whose algorithm is not "sha1": once the
    body is staged the call is rejected with
    [CHECKSUM_ALGORITHM_UNSUPPORTED].  In every case the call ends in that
    rejection or in the write error of the staging step, so it is never
    rejected with [CHECKSUM_MISMATCH] and never waits for a digest; the
    data artifact is not written and nothing is emitted. *)
Theorem write_unsupported_algorithm (store : FileStore) (io : faults)
    (req : request) (file_id : string) (offset : nat) (d : disk)
    (upload_checksum : string) :
  headers req !! "upload-checksum" = Some upload_checksum →
  split_on " " upload_checksum !! 0%nat ≠ Some "sha1" →
  let r := write store io req file_id offset d in
  (staged store io file_id d →
     settled r = Rejected CHECKSUM_ALGORITHM_UNSUPPORTED
     ∧ fails_with ChecksumAlgorithmUnsupported r)
  ∧ (settled r = Rejected CHECKSUM_ALGORITHM_UNSUPPORTED
     ∨ settled r = Rejected FILE_WRITE_ERROR)
  ∧ ¬ fails_with ChecksumMismatch r
  ∧ disk_of r !! filePath store file_id = d !! filePath store file_id
  ∧ emitted r = [].
Proof.
  intros Hhdr Halg r.
  assert (Hshape : (∃ d1, r = Run (Rejected CHECKSUM_ALGORITHM_UNSUPPORTED) d1 [])
                   ∨ r = Run (Rejected FILE_WRITE_ERROR) d []).
  { subst r. unfold write, verify_checksum. rewrite Hhdr.
    rewrite (bool_decide_eq_true_2 _ Halg).
    destruct (createWriteStream _ _ _ _ _); eauto. }
  split; [| split; [| split; [| split]]].
  - intros Hst. subst r. unfold write, verify_checksum.
    rewrite (staged_createWriteStream _ _ _ _ _ Hst), Hhdr.
    rewrite (bool_decide_eq_true_2 _ Halg). simpl.
    split; [done | by eexists].
  - destruct Hshape as [[d1 ->] | ->]; [by left | by right].
  - intros (e & He & Hk).
    destruct Hshape as [[d1 ->] | ->]; simpl in He; by simplify_eq.
  - apply write_unresolved_data. fold r.
    destruct Hshape as [[d1 ->] | ->]; done.
  - destruct Hshape as [[d1 ->] | ->]; done.
Qed.

Lemma write_unsupported_algorithm_witness :
  let r := write demo_store no_faults
             (request_of [("upload-checksum", "md5 AAAA")] ["abc"]) "u" 0
             created in
  settled r = Rejected CHECKSUM_ALGORITHM_UNSUPPORTED
  ∧ ¬ fails_with ChecksumMismatch r
  ∧ disk_of r !! "files/u" = Some (RegularFile []).
Proof.
  pose proof (write_unsupported_algorithm demo_store no_faults
    (request_of [("upload-checksum", "md5 AAAA")] ["abc"]) "u" 0 created
    "md5 AAAA" eq_refl ltac:(vm_compute; discriminate))
    as (H1 & _ & H2 & H3 & _).
  split; [| split].
  - apply H1. split; [reflexivity | vm_compute; discriminate].
  - exact H2.
  - transitivity (created !! filePath demo_store "u"); [exact H3 |].
    vm_compute. reflexivity.
Defined.

(** C7.  A call that resolves returns the starting offset plus the
    number of bytes received; the data artifact existed, and now holds the
    received bytes from the starting offset on. *)
Theorem write_returns_new_offset (store : FileStore) (io : faults)
    (req : request) (file_id : string) (offset : nat) (d : disk) (v : nat) :
  settled (write store io req file_id offset d) = Resolved v →
  v = (offset + received req)%nat
  ∧ ∃ old new,
      d !! filePath store file_id = Some (RegularFile old)
      ∧ disk_of (write store io req file_id offset d) !! filePath store file_id
        = Some (RegularFile new)
      ∧ new = pwrite old offset (concat (body req))
      ∧ take (received req) (drop offset new) = concat (body req).
Proof.
  pose proof (tmp_ne_filePath store file_id) as Hne.
  assert (Hlen : received req = length (concat (body req))).
  { unfold received. induction (body req) as [|b bs IH]; [done |].
    simpl. rewrite length_app. by f_equal. }
  unfold write, createWriteStream, createReadStream, fs_unlink.
  intros Hres.
  repeat case_match; simplify_eq/=; simplify_map_eq.
  all: split; [done |]; do 2 eexists; split; [done |].
  all: split; [by simplify_map_eq |]; split; [done |].
  all: rewrite Hlen; apply pwrite_read_back.
Qed.

Lemma write_returns_new_offset_witness :
  let r := write demo_store no_faults
             (request_of [("upload-checksum", "sha1 qZk+NkcGgWq6PiVxeFDCbJzQ2J0=")]
                ["abc"]) "u" 0 created in
  settled r = Resolved 3%nat
  ∧ ∃ new, disk_of r !! "files/u" = Some (RegularFile new)
           ∧ take 3 new = bytes "abc".
Proof.
  intros r.
  assert (Hres : settled r = Resolved 3%nat) by (vm_compute; reflexivity).
  split; [exact Hres |].
  destruct (write_returns_new_offset _ _ _ _ _ _ _ Hres)
    as (_ & old & new & _ & Hnew & _ & Hread).
  exists new. split; [exact Hnew | exact Hread].
Defined.

(** A declaration "sha1 <digest>" whose digest is not that of the staged
    bytes: the call is rejected with [CHECKSUM_MISMATCH], nothing is
    emitted and the data artifact is as before; the staging artifact
    stays on the disk, holding the rejected bytes. *)
Lemma write_checksum_mismatch (store : FileStore) (io : faults)
    (req : request) (file_id : string) (offset : nat) (d : disk)
    (upload_checksum : string) :
  headers req !! "upload-checksum" = Some upload_checksum →
  split_on " " upload_checksum !! 0%nat = Some "sha1" →
  split_on " " upload_checksum !! 1%nat
    ≠ Some (sha1_base64 (concat (body req))) →
  staged store io file_id d →
  io (SysCreateReadStream (filePath store file_id +:+ ".tmp")) = None →
  let r := write store io req file_id offset d in
  settled r = Rejected CHECKSUM_MISMATCH
  ∧ emitted r = []
  ∧ disk_of r !! filePath store file_id = d !! filePath store file_id
  ∧ disk_of r !! (filePath store file_id +:+ ".tmp")
    = Some (RegularFile (concat (body req))).
Proof.
  intros Hhdr Halg Hval Hst Hread r.
  assert (Hr : r = Run (Rejected CHECKSUM_MISMATCH)
                 (<[filePath store file_id +:+ ".tmp" :=
                      RegularFile (concat (body req))]> d) []).
  { subst r. unfold write, verify_checksum, calculateSHA1File, createReadStream.
    rewrite (staged_createWriteStream _ _ _ _ _ Hst), Hhdr, Hread, Halg.
    rewrite lookup_insert_eq. simpl.
    by rewrite (bool_decide_eq_true_2 _ Hval). }
  rewrite Hr. simpl. repeat split.
  - rewrite lookup_insert_ne; [done | apply tmp_ne_filePath].
  - by rewrite lookup_insert_eq.
Qed.

(** C1, on the code.  A write of "abc" at offset 0 that declares the
    digest "AAAA" is rejected with [CHECKSUM_MISMATCH]; the data artifact
    keeps its bytes and [getOffset] answers as before.  But the staging
    artifact is not discarded: [files/u.tmp], which did not exist, is now
    on the disk with the rejected bytes.  (The path that commits the
    bytes unlinks it.) *)
Theorem write_mismatch_keeps_staging_artifact :
  let r := write demo_store no_faults
             (request_of [("upload-checksum", "sha1 AAAA")] ["abc"]) "u" 0
             created in
  settled r = Rejected CHECKSUM_MISMATCH
  ∧ disk_of r !! "files/u" = created !! "files/u"
  ∧ getOffset demo_store no_faults "u" (disk_of r)
    = getOffset demo_store no_faults "u" created
  ∧ created !! "files/u.tmp" = None
  ∧ disk_of r !! "files/u.tmp" = Some (RegularFile (bytes "abc")).
Proof. vm_compute. repeat split. Qed.

(** ** Claims about [create] *)

(** C5, as the code has it.  [create] is rejected with [INVALID_LENGTH]
    exactly when neither the declared length nor the deferred flag is
    supplied. *)
Theorem create_invalid_length_iff (store : FileStore) (io : faults)
    (req : request) (d : disk) :
  fails_with InvalidLength (create store io req d)
  ↔ headers req !! "upload-length" = None
    ∧ headers req !! "upload-defer-length" = None.
Proof.
  unfold fails_with, rejected_with, create, fs_open_w, writeFileInfo,
    writeFileAtomic_sync, fs_close.
  split.
  - intros (e & He & Hk).
    repeat case_match; simplify_eq/=;
      try (by destruct e); try done.
    all: repeat match goal with
           | H : _ && _ = true |- _ => apply andb_prop in H as [??]
           | H : bool_decide _ = true |- _ => apply bool_decide_eq_true_1 in H
           end; done.
  - intros [-> ->]. simpl. by exists INVALID_LENGTH.
Qed.

Lemma create_invalid_length_iff_witness :
  fails_with InvalidLength (create demo_store no_faults (request_of [] []) ∅).
Proof.
  apply create_invalid_length_iff. split; reflexivity.
Defined.

(** C5 as stated does not hold: a request that supplies both the
    declared length and the deferred flag is accepted. *)
Lemma create_accepts_both_lengths :
  let r := create demo_store no_faults
             (request_of [("upload-length", "10"); ("upload-defer-length", "1")]
                []) ∅ in
  settled r = Resolved (new_File "u" (Some "10") (Some "1") None)
  ∧ ¬ fails_with InvalidLength r.
Proof.
  split; [vm_compute; reflexivity |].
  intros (e & He & _). vm_compute in He. discriminate.
Qed.

(** C3, as the code has it.  When a length header is supplied and the
    naming function throws, [create] is rejected with [FILE_WRITE_ERROR],
    the storage-write error, before anything is created. *)
Theorem create_naming_failure (store : FileStore) (io : faults)
    (req : request) (d : disk) :
  generateFileName store req = None →
  headers req !! "upload-length" ≠ None
    ∨ headers req !! "upload-defer-length" ≠ None →
  create store io req d = Run (Rejected FILE_WRITE_ERROR) d []
  ∧ fails_with StorageWriteError (create store io req d).
Proof.
  intros Hgen Hlen.
  assert (Hc : create store io req d = Run (Rejected FILE_WRITE_ERROR) d []).
  { unfold create. rewrite Hgen.
    destruct Hlen as [Hl | Hl];
      [destruct (headers req !! "upload-length")
      |destruct (headers req !! "upload-defer-length")]; try done.
    by rewrite andb_false_r. }
  split; [exact Hc |]. rewrite Hc. by exists FILE_WRITE_ERROR.
Qed.

Lemma create_naming_failure_witness :
  create unnamed_store no_faults (request_of [("upload-length", "10")] []) ∅
  = Run (Rejected FILE_WRITE_ERROR) ∅ [].
Proof.
  apply (create_naming_failure unnamed_store no_faults
           (request_of [("upload-length", "10")] []) ∅ eq_refl).
  left. vm_compute. discriminate.
Defined.

(** C3 as stated does not hold: the rejection is not of kind
    [IdentifierGenerationError]. *)
Lemma create_naming_failure_kind :
  generateFileName unnamed_store (request_of [("upload-length", "10")] []) = None
  ∧ ¬ fails_with IdentifierGenerationError
        (create unnamed_store no_faults
           (request_of [("upload-length", "10")] []) ∅).
Proof.
  split; [reflexivity |].
  intros (e & He & Hk). vm_compute in He. by simplify_eq.
Qed.

(** C4, as the code has it.  When a length header is supplied and an
    identifier was generated, a failure of the file system is passed on
    as it came, and nothing is emitted.  If the data artifact cannot be
    created the disk is unchanged; if the metadata cannot be persisted
    the metadata artifact is as it was before the call. *)
Theorem create_io_failure (store : FileStore) (io : faults) (req : request)
    (d : disk) (file_id : string) :
  headers req !! "upload-length" ≠ None
    ∨ headers req !! "upload-defer-length" ≠ None →
  generateFileName store req = Some file_id →
  let file :=
    new_File file_id (headers req !! "upload-length")
      (headers req !! "upload-defer-length") (headers req !! "upload-metadata") in
  let r := create store io req d in
  (∀ err, fs_open_w io (filePath store file_id) d = inl err →
     r = Run (Rejected (IoError err)) d [] ∧ fails_with IoFailure r)
  ∧ (∀ d1 err,
       fs_open_w io (filePath store file_id) d = inr d1 →
       writeFileInfo store io file d1 = inl err →
       settled r = Rejected (IoError err) ∧ fails_with IoFailure r
       ∧ emitted r = []
       ∧ disk_of r !! infoPath store file_id = d !! infoPath store file_id)
  ∧ (∀ d1 d2 err,
       fs_open_w io (filePath store file_id) d = inr d1 →
       writeFileInfo store io file d1 = inr d2 →
       fs_close io (filePath store file_id) = Some err →
       settled r = Rejected (IoError err) ∧ fails_with IoFailure r
       ∧ emitted r = []).
Proof.
  intros Hlen Hgen file r.
  assert (Hguard : bool_decide (headers req !! "upload-length" = None)
                   && bool_decide (headers req !! "upload-defer-length" = None)
                   = false).
  { destruct Hlen as [Hl | Hl];
      [destruct (headers req !! "upload-length")
      |destruct (headers req !! "upload-defer-length")]; try done.
    by rewrite andb_false_r. }
  subst r. unfold create. rewrite Hguard, Hgen. fold file.
  split; [| split].
  - intros err ->. split; [done | by eexists].
  - intros d1 err Hopen Hinfo. rewrite Hopen, Hinfo. simpl.
    split; [done |]. split; [by eexists |]. split; [done |].
    unfold fs_open_w in Hopen. repeat case_match; simplify_eq.
    all: apply lookup_insert_ne, not_eq_sym, infoPath_ne_filePath.
  - intros d1 d2 err Hopen Hinfo Hclose. rewrite Hopen, Hinfo, Hclose. simpl.
    split; [done |]. split; [by eexists | done].
Qed.

Lemma create_io_failure_witness :
  let r := create demo_store full_disk (request_of [("upload-length", "10")] [])
             ∅ in
  settled r = Rejected (IoError ENOSPC) ∧ emitted r = []
  ∧ disk_of r !! "files/u.info" = None.
Proof.
  pose proof (create_io_failure demo_store full_disk
    (request_of [("upload-length", "10")] []) ∅ "u"
    ltac:(left; vm_compute; discriminate) eq_refl) as (_ & H & _).
  destruct (H (<["files/u" := RegularFile []]> (∅ : disk)) ENOSPC
              ltac:(reflexivity) ltac:(reflexivity))
    as (H1 & _ & H2 & H3).
  split; [exact H1 |]. split; [exact H2 |].
  transitivity ((∅ : disk) !! infoPath demo_store "u"); [exact H3 | reflexivity].
Defined.

(** C4 as stated does not hold: when the metadata cannot be persisted
    the rejection is the error of the file system, not of kind
    [StorageWriteError], and the empty data artifact that was created
    first stays, with no metadata artifact next to it. *)
Lemma create_metadata_failure_leaves_data :
  let r := create demo_store full_disk (request_of [("upload-length", "10")] [])
             ∅ in
  settled r = Rejected (IoError ENOSPC)
  ∧ ¬ fails_with StorageWriteError r
  ∧ disk_of r !! "files/u" = Some (RegularFile [])
  ∧ disk_of r !! "files/u.info" = None.
Proof.
  split; [vm_compute; reflexivity |].
  split; [| split; vm_compute; reflexivity].
  intros (e & He & Hk). vm_compute in He. by simplify_eq.
Qed.

(** ** Claims about [getOffset] *)

(** C6.  The failures of [getOffset], in the order they are tested: no
    data artifact and a metadata record gives [FILE_NO_LONGER_EXISTS]; no
    data artifact and no metadata record gives [FILE_NOT_FOUND]; a
    directory gives [FILE_NOT_FOUND]; any other failure of [fs.stat] is
    passed on. *)
Theorem getOffset_error_mapping (store : FileStore) (io : faults)
    (file_id : string) (d : disk) :
  let config := getFileInfo store io file_id d in
  let path := filePath store file_id in
  let p := getOffset store io file_id d in
  (io (SysStat path) = None → d !! path = None → truthy config = true →
     p = Rejected FILE_NO_LONGER_EXISTS ∧ rejected_with ArtifactVanished p)
  ∧ (io (SysStat path) = None → d !! path = None → truthy config = false →
       p = Rejected FILE_NOT_FOUND ∧ rejected_with NotFound p)
  ∧ (io (SysStat path) = None → d !! path = Some Directory →
       p = Rejected FILE_NOT_FOUND ∧ rejected_with NotFound p)
  ∧ (∀ code, fs_stat io path d = inl code → code ≠ ENOENT →
       p = Rejected (IoError code) ∧ rejected_with IoFailure p).
Proof.
  intros config path p.
  assert (Hkind : ∀ e, p = Rejected e → p = Rejected e
                       ∧ rejected_with (error_kind e) p).
  { intros e He. split; [done | by exists e]. }
  split; [| split; [| split]].
  - intros Hio Hd Ht. apply (Hkind FILE_NO_LONGER_EXISTS).
    subst p. unfold getOffset, fs_stat. fold path config.
    by rewrite Hio, Hd, Ht.
  - intros Hio Hd Ht. apply (Hkind FILE_NOT_FOUND).
    subst p. unfold getOffset, fs_stat. fold path config.
    by rewrite Hio, Hd, Ht.
  - intros Hio Hd. apply (Hkind FILE_NOT_FOUND).
    subst p. unfold getOffset, fs_stat. fold path.
    by rewrite Hio, Hd.
  - intros code Hstat Hcode. apply (Hkind (IoError code)).
    subst p. unfold getOffset. fold path. rewrite Hstat.
    by rewrite bool_decide_eq_false_2.
Qed.

Lemma getOffset_error_mapping_witness :
  getOffset demo_store no_faults "u" (delete "files/u" created)
  = Rejected FILE_NO_LONGER_EXISTS
  ∧ getOffset demo_store no_faults "v" created = Rejected FILE_NOT_FOUND.
Proof.
  split.
  - destruct (getOffset_error_mapping demo_store no_faults "u"
                (delete "files/u" created)) as (H & _).
    apply H; vm_compute; reflexivity.
  - destruct (getOffset_error_mapping demo_store no_faults "v" created)
      as (_ & H & _).
    apply H; vm_compute; reflexivity.
Defined.

(** C10.  A data artifact that is a regular file, with a metadata
    artifact that is missing or does not parse: [getOffset] resolves, with
    the size of the data artifact and nothing assigned onto the status. *)
Theorem getOffset_without_metadata (store : FileStore) (io : faults)
    (file_id : string) (d : disk) (content : list byte) :
  d !! filePath store file_id = Some (RegularFile content) →
  io (SysStat (filePath store file_id)) = None →
  d !! infoPath store file_id = None
    ∨ (∃ text, d !! infoPath store file_id = Some (RegularFile text)
               ∧ Json.parse (string_of_list_byte text) = None) →
  getOffset store io file_id d
  = Resolved (Object_assign {| size := length content; isDirectory := false |}
                JNull).
Proof.
  intros Hdata Hio Hinfo.
  assert (Hcfg : getFileInfo store io file_id d = JNull).
  { unfold getFileInfo, fs_readFileSync.
    destruct (io (SysReadFile _)); [done |].
    destruct Hinfo as [-> | (text & -> & ->)]; done. }
  unfold getOffset, fs_stat. by rewrite Hcfg, Hio, Hdata.
Qed.

Lemma getOffset_without_metadata_witness :
  getOffset demo_store no_faults "u" orphan
  = Resolved (Object_assign {| size := 3; isDirectory := false |} JNull).
Proof.
  apply (getOffset_without_metadata demo_store no_faults "u" orphan
           (bytes "abc")).
  - vm_compute. reflexivity.
  - reflexivity.
  - right. exists (bytes "{"). split; vm_compute; reflexivity.
Defined.

(** ** The "upload complete" notification *)

(** What a call emits, in terms of the disk it starts from: the
    notification when it resolves and the metadata record declares the
    offset it reached, nothing otherwise. *)
Lemma write_emitted (store : FileStore) (io : faults) (req : request)
    (file_id : string) (offset : nat) (d : disk) :
  let r := write store io req file_id offset d in
  let config := getFileInfo store io file_id d in
  emitted r
  = if is_resolved (settled r) && truthy config
       && bool_decide (parseInt (get_prop config "upload_length")
                       = Some (Z.of_nat (offset + received req)))
    then [EVENT_UPLOAD_COMPLETE config] else [].
Proof.
  pose proof (infoPath_ne_filePath store file_id) as Hi1.
  pose proof (infoPath_ne_tmp store file_id) as Hi2.
  unfold write.
  destruct (createWriteStream io _ flags_w _ d) as [?|d1] eqn:Hst; [done |].
  destruct (verify_checksum _ _ _ _) as [?|[?|]]; [done | done |].
  destruct (createReadStream _ _ _) as [bs|]; [| done].
  destruct (createWriteStream io _ (flags_rplus _) _ d1) as [?|d2] eqn:Hc;
    [done |].
  assert (Hinfo : d2 !! infoPath store file_id = d !! infoPath store file_id).
  { unfold createWriteStream in Hst, Hc.
    repeat case_match; simplify_eq; by simplify_map_eq. }
  by rewrite (getFileInfo_ext _ _ _ _ _ Hinfo).
Qed.

Lemma getFileInfo_fault (store : FileStore) (io : faults) (file_id : string)
    (d : disk) :
  getFileInfo store io file_id d = getFileInfo store no_faults file_id d
  ∨ getFileInfo store io file_id d = JNull.
Proof.
  unfold getFileInfo, fs_readFileSync. simpl.
  destruct (io (SysReadFile _)); [by right | by left].
Qed.

Lemma declared_length_ext (store : FileStore) (file_id : string) (d d' : disk) :
  d' !! infoPath store file_id = d !! infoPath store file_id →
  declared_length store file_id d' = declared_length store file_id d.
Proof.
  intros H. unfold declared_length. by rewrite (getFileInfo_ext _ _ _ _ _ H).
Qed.

(** A call that emits reached the declared length. *)
Lemma write_emits_at_declared_length (store : FileStore) (io : faults)
    (req : request) (file_id : string) (offset : nat) (d : disk) :
  emitted (write store io req file_id offset d) ≠ [] →
  declared_length store file_id d = Some (Z.of_nat (offset + received req)).
Proof.
  rewrite write_emitted. unfold declared_length.
  destruct (getFileInfo_fault store io file_id d) as [-> | ->];
    [| by rewrite andb_false_r].
  destruct (is_resolved _); [| done]. simpl.
  destruct (truthy _); [| done]. simpl.
  by case_bool_decide.
Qed.

Lemma write_emits_at_most_one (store : FileStore) (io : faults)
    (req : request) (file_id : string) (offset : nat) (d : disk) :
  (length (List.filter is_complete
             (emitted (write store io req file_id offset d))) ≤ 1)%nat.
Proof. rewrite write_emitted. case_match; simpl; lia. Qed.

Lemma completions_cons (r : run nat) (rs : list (run nat)) :
  completions (r :: rs)
  = (length (List.filter is_complete (emitted r)) + completions rs)%nat.
Proof.
  unfold completions. simpl. by rewrite List.filter_app, length_app.
Qed.

(** Calls none of which reaches the declared length emit nothing. *)
Lemma writes_off_target (store : FileStore) (file_id : string)
    (calls : list call) :
  ∀ d,
    (∀ c, c ∈ calls →
       declared_length store file_id d ≠ Some (Z.of_nat (target c))) →
    completions (writes store file_id calls d) = 0%nat.
Proof.
  induction calls as [|c rest IH]; intros d Hoff; [done |].
  simpl. rewrite completions_cons.
  destruct (emitted (write store (call_io c) (call_req c) file_id
                       (call_offset c) d)) as [|e es] eqn:Hem.
  - simpl. apply IH. intros c' Hc'.
    rewrite (declared_length_ext _ _ d); [apply Hoff; by right |].
    apply write_frame; auto with paths.
  - exfalso. apply (Hoff c); [by left |].
    apply (write_emits_at_declared_length _ (call_io c)). by rewrite Hem.
Qed.

Lemma writes_complete_once (store : FileStore) (file_id : string)
    (calls : list call) :
  ∀ d, NoDup (target <$> calls) →
       (completions (writes store file_id calls d) ≤ 1)%nat.
Proof.
  induction calls as [|c rest IH]; intros d Hnd; [unfold completions; simpl; lia |].
  rewrite fmap_cons in Hnd. apply NoDup_cons in Hnd as [Hfresh Hnd].
  simpl. rewrite completions_cons.
  set (r := write store (call_io c) (call_req c) file_id (call_offset c) d).
  destruct (emitted r) as [|e es] eqn:Hem.
  - simpl. by apply IH.
  - rewrite <- Hem. rewrite writes_off_target; [| intros c' Hc'].
    + pose proof (write_emits_at_most_one store (call_io c) (call_req c)
                    file_id (call_offset c) d). fold r in H. lia.
    + rewrite (declared_length_ext _ _ d);
        [| apply write_frame; auto with paths].
      rewrite (write_emits_at_declared_length _ (call_io c) (call_req c) _
                 (call_offset c)) by (fold r; by rewrite Hem).
      intros Heq. apply Hfresh. apply list_elem_of_fmap.
      exists c'. split; [| done]. unfold target in *. simplify_eq. lia.
Qed.

Lemma contiguous_targets (calls : list call) :
  ∀ offset, contiguous offset calls →
    Forall (λ c, (offset < target c)%nat) calls ∧ NoDup (target <$> calls).
Proof.
  induction calls as [|c rest IH]; intros offset Hc.
  - split; [constructor | constructor].
  - destruct Hc as (Hoff & Hpos & Hrest).
    destruct (IH _ Hrest) as [Hgt Hnd].
    assert (Ht : (offset < target c)%nat) by (unfold target; lia).
    split.
    + constructor; [done |]. eapply Forall_impl; [exact Hgt |].
      simpl. intros. lia.
    + rewrite fmap_cons. constructor; [| done].
      intros Hin. apply list_elem_of_fmap in Hin as (c' & Heq & Hc').
      rewrite Forall_forall in Hgt. specialize (Hgt _ Hc'). lia.
Qed.

Lemma write_resolved_value (store : FileStore) (io : faults) (req : request)
    (file_id : string) (offset : nat) (d : disk) (v : nat) :
  settled (write store io req file_id offset d) = Resolved v →
  v = (offset + received req)%nat.
Proof.
  unfold write. intros Hres. repeat case_match; by simplify_eq/=.
Qed.

(** C2, as the code has it.  A call emits "upload complete" exactly when
    it resolves and its new offset is the declared length of the metadata
    record, and then emits it once.  Over successive calls whose new
    offsets are pairwise distinct, such as contiguous calls that each
    deliver at least one byte, the notification is emitted at most once.
    With a declared length of 10, writing 4 bytes at offset 0 emits
    nothing and writing 6 bytes at offset 4 emits the notification. *)
Theorem upload_complete_notification :
  (∀ store io req file_id offset d,
     let r := write store io req file_id offset d in
     let config := getFileInfo store io file_id d in
     (emitted r = [] ∨ emitted r = [EVENT_UPLOAD_COMPLETE config])
     ∧ (emitted r ≠ [] ↔
          settled r = Resolved (offset + received req)%nat
          ∧ truthy config = true
          ∧ parseInt (get_prop config "upload_length")
            = Some (Z.of_nat (offset + received req))))
  ∧ (∀ store file_id calls d,
       NoDup (target <$> calls) →
       (completions (writes store file_id calls d) ≤ 1)%nat)
  ∧ (∀ store file_id calls d offset,
       contiguous offset calls →
       (completions (writes store file_id calls d) ≤ 1)%nat)
  ∧ (let r1 := write demo_store no_faults (request_of [] ["abcd"]) "u" 0
                 created in
     let r2 := write demo_store no_faults (request_of [] ["efghij"]) "u" 4
                 (disk_of r1) in
     declared_length demo_store "u" created = Some 10
     ∧ settled r1 = Resolved 4%nat ∧ emitted r1 = []
     ∧ settled r2 = Resolved 10%nat
     ∧ emitted r2
       = [EVENT_UPLOAD_COMPLETE
            (JObj [("id", JStr "u"); ("upload_length", JStr "10")])]).
Proof.
  split; [| split; [| split]].
  - intros store io req file_id offset d r config.
    pose proof (write_emitted store io req file_id offset d) as Hem.
    pose proof (write_resolved_value store io req file_id offset d) as Hval.
    fold r config in Hem. fold r in Hval. rewrite Hem.
    destruct (settled r) as [v| |]; simpl.
    + rewrite (Hval v eq_refl).
      destruct (truthy config); simpl; [case_bool_decide as Hp |].
      * split; [by right | done].
      * split; [by left |]. split; [done | by intros (_ & _ & ?)].
      * split; [by left |]. split; [done | by intros (_ & ? & _)].
    + split; [by left |]. split; [done | by intros (? & _)].
    + split; [by left |]. split; [done | by intros (? & _)].
  - intros store file_id calls d. apply writes_complete_once.
  - intros store file_id calls d offset Hc.
    apply writes_complete_once. by apply (contiguous_targets calls offset).
  - vm_compute. repeat split.
Qed.

Lemma upload_complete_notification_witness :
  (completions (writes demo_store "u"
                  [plain_call ["abcd"] 0; plain_call ["efghij"] 4] created)
   ≤ 1)%nat.
Proof.
  destruct upload_complete_notification as (_ & _ & H & _).
  apply (H demo_store "u" _ created 0%nat).
  simpl. repeat split; vm_compute; lia.
Defined.

(** C2 as stated does not hold: against a declared length of 10, a call
    that delivers 10 bytes at offset 0 and a call that then delivers no
    byte at offset 10 both emit the notification. *)
Lemma upload_complete_twice :
  declared_length demo_store "u" created = Some 10
  ∧ completions (writes demo_store "u"
                   [plain_call ["abcdefghij"] 0; plain_call [] 10] created)
    = 2%nat.
Proof. vm_compute. split; reflexivity. Qed.

(** ** Further properties of the store *)

(** *** Reading back what [JSON.stringify] wrote *)

Lemma append_cons (c : ascii) (s t : string) :
  String c s +:+ t = String c (s +:+ t).
Proof. reflexivity. Qed.

Lemma append_empty_r (s : string) : s +:+ "" = s.
Proof.
  induction s as [|c s IH]; [done |].
  change (String c (s +:+ "") = String c s). by rewrite IH.
Qed.

Lemma append_inj_r (t s1 s2 : string) : s1 +:+ t = s2 +:+ t → s1 = s2.
Proof.
  revert s2. induction s1 as [|c s1 IH]; intros [|c2 s2] Heq; [done | | |].
  - apply (f_equal String.length) in Heq.
    change (String.length t = S (String.length (s2 +:+ t))) in Heq.
    rewrite append_length in Heq. lia.
  - apply (f_equal String.length) in Heq.
    change (S (String.length (s1 +:+ t)) = String.length t) in Heq.
    rewrite append_length in Heq. lia.
  - change (String c (s1 +:+ t) = String c2 (s2 +:+ t)) in Heq.
    simplify_eq. f_equal. by apply IH.
Qed.

(** An escaped character is read back as the character. *)
Lemma string_body_quote_char (c : ascii) (fuel : nat) (tail : string) :
  Json.string_body (S fuel) (Json.quote_char c +:+ tail)
  = '(body, rest) ← Json.string_body fuel tail; Some (String c body, rest).
Proof. destruct c as [[] [] [] [] [] [] [] []]; reflexivity. Qed.

Lemma quote_char_length (c : ascii) :
  (0 < String.length (Json.quote_char c))%nat.
Proof. destruct c as [[] [] [] [] [] [] [] []]; vm_compute; lia. Qed.

Lemma string_body_quote_body (s : string) :
  ∀ fuel rest,
    (String.length (Json.quote_body s) < fuel)%nat →
    Json.string_body fuel (Json.quote_body s +:+ String dquote rest)
    = Some (s, rest).
Proof.
  induction s as [|c s IH]; intros fuel rest Hfuel.
  - destruct fuel; [simpl in Hfuel; lia | reflexivity].
  - change (Json.quote_body (String c s))
      with (Json.quote_char c +:+ Json.quote_body s) in *.
    rewrite append_length in Hfuel.
    pose proof (quote_char_length c).
    destruct fuel as [|fuel]; [lia |].
    rewrite append_assoc, string_body_quote_char.
    rewrite IH by lia. reflexivity.
Qed.

Lemma quote_unfold (s tail : string) :
  Json.quote s +:+ tail
  = String dquote (Json.quote_body s +:+ String dquote tail).
Proof.
  unfold Json.quote. rewrite !append_cons, append_assoc. reflexivity.
Qed.

Lemma value_quote (s tail : string) (fuel : nat) :
  Json.value (S fuel) (Json.quote s +:+ tail) = Some (JStr s, tail).
Proof.
  rewrite quote_unfold.
  change (Json.value (S fuel) (String dquote ?r))
    with ('(str, r') ← Json.string_body (String.length r) r; Some (JStr str, r')).
  rewrite string_body_quote_body; [reflexivity |].
  rewrite append_length. simpl. lia.
Qed.

(** One property, then whatever follows it. *)
Lemma members_field (kv : string * string) (tail : string) (fuel : nat)
    (acc : list (string * jsval)) :
  Json.members (S (S fuel)) (field kv +:+ tail) acc
  = match Json.skip_ws tail with
    | String "," r4 => Json.members (S fuel) r4 (as_property kv :: acc)
    | String "}" r4 => Some (JObj (rev (as_property kv :: acc)), r4)
    | _ => None
    end.
Proof.
  unfold field, as_property. rewrite !append_assoc, quote_unfold.
  change (Json.members (S (S fuel)) (String dquote ?r) acc)
    with ('(k, r1) ← Json.string_body (String.length r) r;
          match Json.skip_ws r1 with
          | String ":" r2 =>
              '(v, r3) ← Json.value (S fuel) r2;
              match Json.skip_ws r3 with
              | String "," r4 => Json.members (S fuel) r4 ((k, v) :: acc)
              | String "}" r4 => Some (JObj (rev ((k, v) :: acc)), r4)
              | _ => None
              end
          | _ => None
          end).
  rewrite string_body_quote_body by (rewrite append_length; simpl; lia).
  change (":" +:+ ?x) with (String ":" x).
  cbn [mbind option_bind].
  change (Json.skip_ws (String ":" ?x)) with (String ":" x).
  cbv iota beta.
  rewrite value_quote. reflexivity.
Qed.

Lemma members_fields (kvs : list (string * string)) :
  ∀ kv fuel acc rest,
    (length (kv :: kvs) < fuel)%nat →
    Json.members fuel
      (Json.join "," (field <$> kv :: kvs) +:+ String "}" rest) acc
    = Some (JObj (rev acc ++ (as_property <$> kv :: kvs)), rest).
Proof.
  induction kvs as [|kv2 kvs IH]; intros kv fuel acc rest Hfuel.
  - destruct fuel as [|[|fuel]]; [simpl in Hfuel; lia .. |].
    change (Json.join "," (field <$> [kv])) with (field kv).
    rewrite members_field. reflexivity.
  - destruct fuel as [|[|fuel]]; [simpl in Hfuel; lia .. |].
    change (Json.join "," (field <$> kv :: kv2 :: kvs))
      with (field kv +:+ "," +:+ Json.join "," (field <$> kv2 :: kvs)).
    rewrite !append_assoc. rewrite members_field.
    change ("," +:+ ?x) with (String "," x).
    change (Json.skip_ws (String "," ?x)) with (String "," x).
    cbv iota beta.
    rewrite IH by (simpl in *; lia).
    simpl. by rewrite <- app_assoc.
Qed.

Lemma field_length (kv : string * string) :
  (0 < String.length (field kv))%nat.
Proof. unfold field. rewrite quote_unfold. simpl. lia. Qed.

Lemma join_fields_length (kvs : list (string * string)) :
  (length kvs ≤ String.length (Json.join "," (field <$> kvs)))%nat.
Proof.
  induction kvs as [|kv [|kv2 kvs] IH]; [simpl; lia | |].
  - pose proof (field_length kv). simpl in *. lia.
  - change (Json.join "," (field <$> kv :: kv2 :: kvs))
      with (field kv +:+ "," +:+ Json.join "," (field <$> kv2 :: kvs)).
    rewrite !append_length. pose proof (field_length kv). simpl in *. lia.
Qed.

Lemma join_fields_head (kv : string * string) (kvs : list (string * string))
    (tail : string) :
  ∃ r, Json.join "," (field <$> kv :: kvs) +:+ tail = String dquote r.
Proof.
  destruct kvs as [|kv2 kvs].
  - change (Json.join "," (field <$> [kv])) with (field kv).
    unfold field. rewrite !append_assoc, quote_unfold. by eexists.
  - change (Json.join "," (field <$> kv :: kv2 :: kvs))
      with (field kv +:+ "," +:+ Json.join "," (field <$> kv2 :: kvs)).
    unfold field at 1. rewrite !append_assoc, quote_unfold. by eexists.
Qed.

(** The parser has fuel enough for an object of string properties. *)
Lemma parse_record (kv : string * string) (kvs : list (string * string)) :
  Json.parse ("{" +:+ Json.join "," (field <$> kv :: kvs) +:+ "}")
  = Some (JObj (as_property <$> kv :: kvs)).
Proof.
  unfold Json.parse.
  set (s := "{" +:+ Json.join "," (field <$> kv :: kvs) +:+ "}").
  assert (Hlen : (length (kv :: kvs) < String.length s)%nat).
  { subst s. rewrite !append_length.
    pose proof (join_fields_length (kv :: kvs)). simpl in *. lia. }
  destruct (2 * String.length s + 2)%nat as [|fuel] eqn:Hfuel; [lia |].
  assert (Hm : (length (kv :: kvs) < fuel)%nat) by lia.
  subst s. clear Hfuel Hlen.
  change ("{" +:+ ?x) with (String "{" x).
  pose proof (members_fields kvs kv fuel [] "" Hm) as Hmem.
  destruct (join_fields_head kv kvs "}") as [r Hr].
  rewrite Hr in *.
  change (Json.value (S fuel) (String "{" (String dquote r)))
    with (Json.members fuel (String dquote r) []).
  rewrite Hmem. reflexivity.
Qed.

Lemma stringify_record_fields (props : list (string * option string)) :
  Json.stringify_record props
  = "{" +:+ Json.join ","
              (field <$> omap (λ '(k, v), pair k <$> v) props) +:+ "}".
Proof.
  unfold Json.stringify_record. do 3 f_equal.
  induction props as [|[k [v|]] props IH]; [done | | done].
  cbn [omap list_omap fmap list_fmap option_fmap option_map]. by rewrite IH.
Qed.

Lemma JSON_parse_stringify (file : File) :
  Json.parse (JSON_stringify file) = Some (File_object file).
Proof.
  unfold JSON_stringify. rewrite stringify_record_fields.
  exact (parse_record ("id", id file) _).
Qed.

Lemma File_object_upload_length (file : File) :
  get_prop (File_object file) "upload_length" = JStr <$> upload_length file.
Proof. destruct file as [i [ul|] [udl|] [um|]]; reflexivity. Qed.

(** X1.  The metadata round trip: once [writeFileInfo] has persisted a
    record, [getFileInfo] for its identifier returns an object with
    exactly the properties of the record that are not [undefined], each
    with the string it had, whatever characters the strings hold. *)
Theorem getFileInfo_writeFileInfo (store : FileStore) (io io' : faults)
    (file : File) (d d' : disk) :
  writeFileInfo store io file d = inr d' →
  io' (SysReadFile (infoPath store (id file))) = None →
  getFileInfo store io' (id file) d' = File_object file.
Proof.
  unfold writeFileInfo, writeFileAtomic_sync, getFileInfo, fs_readFileSync.
  intros Hw ->. repeat case_match; simplify_eq; simplify_map_eq.
  all: unfold bytes;
    by rewrite string_of_list_byte_of_string, JSON_parse_stringify.
Qed.

Lemma getFileInfo_writeFileInfo_witness :
  getFileInfo demo_store no_faults "u"
    (<["files/u.info" := RegularFile (bytes (JSON_stringify demo_file))]> ∅)
  = JObj [("id", JStr "u"); ("upload_length", JStr "10")].
Proof.
  apply (getFileInfo_writeFileInfo demo_store no_faults no_faults demo_file ∅);
    reflexivity.
Defined.

(** *** [create] *)

Lemma create_length_guard (req : request) :
  headers req !! "upload-length" ≠ None
    ∨ headers req !! "upload-defer-length" ≠ None →
  bool_decide (headers req !! "upload-length" = None)
  && bool_decide (headers req !! "upload-defer-length" = None) = false.
Proof.
  intros [Hl | Hl];
    [destruct (headers req !! "upload-length")
    |destruct (headers req !! "upload-defer-length")]; try done.
  by rewrite andb_false_r.
Qed.

(** X2.  When a length header is supplied, an identifier is generated,
    no call to the file system fails and neither artifact path is a
    directory, [create] resolves with the record made of the identifier
    and the three headers, emits the created event with it, and leaves
    the data artifact empty (truncating what was there) next to the
    serialized record. *)
Theorem create_success (store : FileStore) (io : faults) (req : request)
    (d : disk) (file_id : string) :
  headers req !! "upload-length" ≠ None
    ∨ headers req !! "upload-defer-length" ≠ None →
  generateFileName store req = Some file_id →
  io (SysOpen (filePath store file_id)) = None →
  io (SysWriteFileAtomic (infoPath store file_id)) = None →
  io (SysClose (filePath store file_id)) = None →
  d !! filePath store file_id ≠ Some Directory →
  d !! infoPath store file_id ≠ Some Directory →
  let file := created_file req file_id in
  create store io req d
  = Run (Resolved file)
      (<[infoPath store file_id := RegularFile (bytes (JSON_stringify file))]>
         (<[filePath store file_id := RegularFile []]> d))
      [EVENT_FILE_CREATED file].
Proof.
  intros Hlen Hgen Hopen Hinfo Hclose Hd Hi file.
  pose proof (infoPath_ne_filePath store file_id) as Hne.
  unfold create, fs_open_w, writeFileInfo, writeFileAtomic_sync, fs_close.
  rewrite (create_length_guard _ Hlen), Hgen, Hopen. fold file. simpl.
  destruct (d !! filePath store file_id) as [[]|] eqn:Hdp; try done.
  all: rewrite Hinfo, lookup_insert_ne, Hclose by done.
  all: by destruct (d !! infoPath store file_id) as [[]|].
Qed.

Lemma create_success_witness :
  create demo_store no_faults creation ∅
  = Run (Resolved demo_file)
      (<["files/u.info" := RegularFile (bytes (JSON_stringify demo_file))]>
         (<["files/u" := RegularFile []]> ∅))
      [EVENT_FILE_CREATED demo_file].
Proof.
  apply (create_success demo_store no_faults creation ∅ "u");
    try reflexivity; try (vm_compute; discriminate).
  left. vm_compute. discriminate.
Defined.

(** X3.  [create] emits the created event exactly when it resolves: a
    call that resolves emits it once, with the record it resolves with,
    which is the record of the generated identifier and the headers; a
    call that does not resolve emits nothing. *)
Theorem create_emits_iff_resolved (store : FileStore) (io : faults)
    (req : request) (d : disk) :
  let r := create store io req d in
  (∀ file, settled r = Resolved file →
     emitted r = [EVENT_FILE_CREATED file]
     ∧ generateFileName store req = Some (id file)
     ∧ file = created_file req (id file))
  ∧ ((∀ file, settled r ≠ Resolved file) → emitted r = []).
Proof.
  unfold create, created_file. simpl.
  split.
  - intros file Hres. repeat case_match; by simplify_eq/=.
  - intros Hno. repeat case_match; simplify_eq/=; try done.
    by destruct (Hno _ eq_refl).
Qed.

Lemma create_emits_iff_resolved_witness :
  emitted (create demo_store full_disk creation ∅) = [].
Proof.
  apply (create_emits_iff_resolved demo_store full_disk creation ∅).
  intros file Hres. vm_compute in Hres. discriminate.
Defined.

(** X4.  [create] changes no path but the data artifact and the metadata
    artifact of the identifier it generated; a call that generates none
    changes nothing. *)
Theorem create_frame (store : FileStore) (io : faults) (req : request)
    (d : disk) (p : string) :
  (∀ file_id, generateFileName store req = Some file_id →
     p ≠ filePath store file_id ∧ p ≠ infoPath store file_id) →
  disk_of (create store io req d) !! p = d !! p.
Proof.
  intros Hp. unfold create, fs_open_w, writeFileInfo, writeFileAtomic_sync.
  destruct (generateFileName store req) as [file_id|];
    [destruct (Hp _ eq_refl) as [H1 H2] |];
    repeat case_match; simplify_eq/=; by simplify_map_eq.
Qed.

Lemma create_frame_witness :
  disk_of (create demo_store no_faults creation orphan) !! "files/v"
  = orphan !! "files/v".
Proof.
  apply (create_frame demo_store no_faults creation orphan "files/v").
  intros file_id Hgen. injection Hgen as <-.
  split; vm_compute; discriminate.
Defined.

Lemma create_resolved_info (store : FileStore) (io io' : faults)
    (req : request) (d : disk) (file : File) :
  settled (create store io req d) = Resolved file →
  io' (SysReadFile (infoPath store (id file))) = None →
  getFileInfo store io' (id file) (disk_of (create store io req d))
  = File_object file.
Proof.
  intros Hres Hio.
  pose proof (create_persists_metadata _ _ _ _ _ Hres) as Hinfo.
  unfold getFileInfo, fs_readFileSync. rewrite Hio, Hinfo.
  unfold bytes. by rewrite string_of_list_byte_of_string, JSON_parse_stringify.
Qed.

Lemma create_resolved_data (store : FileStore) (io : faults)
    (req : request) (d : disk) (file : File) :
  settled (create store io req d) = Resolved file →
  disk_of (create store io req d) !! filePath store (id file)
  = Some (RegularFile []).
Proof.
  unfold create, fs_open_w, writeFileInfo, writeFileAtomic_sync. intros Hres.
  repeat case_match; simplify_eq/=.
  all: rewrite lookup_insert_ne by apply infoPath_ne_filePath.
  all: by rewrite lookup_insert_eq.
Qed.

Lemma create_resolved_headers (store : FileStore) (io : faults)
    (req : request) (d : disk) (file : File) :
  settled (create store io req d) = Resolved file →
  file = created_file req (id file).
Proof.
  unfold create, created_file. intros Hres.
  repeat case_match; by simplify_eq/=.
Qed.

Lemma getOffset_regular (store : FileStore) (io : faults)
    (file_id : string) (d : disk) (content : list byte) :
  d !! filePath store file_id = Some (RegularFile content) →
  io (SysStat (filePath store file_id)) = None →
  getOffset store io file_id d
  = Resolved (Object_assign {| size := length content; isDirectory := false |}
                (getFileInfo store io file_id d)).
Proof. intros Hd Hio. unfold getOffset, fs_stat. by rewrite Hio, Hd. Qed.


(** X5.  [create] then [getOffset]: for the identifier of an upload that
    [create] resolved with, [getOffset] resolves with size 0 and, assigned
    onto the status, the identifier and exactly the headers the request
    supplied. *)
Theorem create_then_getOffset (store : FileStore) (io io' : faults)
    (req : request) (d : disk) (file : File) :
  settled (create store io req d) = Resolved file →
  io' (SysStat (filePath store (id file))) = None →
  io' (SysReadFile (infoPath store (id file))) = None →
  getOffset store io' (id file) (disk_of (create store io req d))
  = Resolved (Object_assign {| size := 0; isDirectory := false |}
                (File_object file))
  ∧ upload_length file = headers req !! "upload-length"
  ∧ upload_defer_length file = headers req !! "upload-defer-length"
  ∧ upload_metadata file = headers req !! "upload-metadata".
Proof.
  intros Hres Hstat Hread. split.
  - rewrite (getOffset_regular _ _ _ _ _
               (create_resolved_data _ _ _ _ _ Hres) Hstat).
    by rewrite (create_resolved_info _ _ _ _ _ _ Hres Hread).
  - by rewrite (create_resolved_headers _ _ _ _ _ Hres) at 1 2 3.
Qed.

Lemma create_then_getOffset_witness :
  getOffset demo_store no_faults "u" created
  = Resolved (Object_assign {| size := 0; isDirectory := false |}
                (JObj [("id", JStr "u"); ("upload_length", JStr "10")])).
Proof.
  apply (create_then_getOffset demo_store no_faults no_faults creation ∅
           demo_file); reflexivity.
Defined.

(** X6.  After [create] the declared length that [write] compares
    offsets with is [parseInt] of the Upload-Length header; an upload
    created without that header (a deferred length) never gets the
    "upload complete" event, whatever is written to it. *)
Theorem create_declared_length (store : FileStore) (io : faults)
    (req : request) (d : disk) (file : File) :
  settled (create store io req d) = Resolved file →
  declared_length store (id file) (disk_of (create store io req d))
  = headers req !! "upload-length" ≫= parseInt10
  ∧ (headers req !! "upload-length" = None →
     ∀ calls,
       completions (writes store (id file) calls
                      (disk_of (create store io req d))) = 0%nat).
Proof.
  intros Hres.
  assert (Hdl : declared_length store (id file) (disk_of (create store io req d))
                = upload_length file ≫= parseInt10).
  { unfold declared_length.
    rewrite (create_resolved_info _ _ no_faults _ _ _ Hres eq_refl).
    rewrite File_object_upload_length.
    by destruct (upload_length file). }
  rewrite (create_resolved_headers _ _ _ _ _ Hres) in Hdl at 2.
  simpl in Hdl. split; [done |].
  intros Hnone calls. apply writes_off_target.
  intros c _. by rewrite Hdl, Hnone.
Qed.

Lemma create_declared_length_witness :
  declared_length demo_store "u" created = Some 10%Z.
Proof.
  apply (create_declared_length demo_store no_faults creation ∅ demo_file).
  reflexivity.
Defined.

(** *** The bytes of the data artifact *)

Lemma pwrite_length (old : list byte) (start : nat) (data : list byte) :
  length (pwrite old start data)
  = match data with
    | [] => length old
    | _ => (length old `max` (start + length data))%nat
    end.
Proof.
  unfold pwrite. destruct data as [|b data]; [done |].
  rewrite !length_app, length_take, length_replicate, length_drop. simpl. lia.
Qed.

Lemma pwrite_lookup_before (old : list byte) (start : nat) (data : list byte)
    (i : nat) :
  (i < start)%nat → (i < length old)%nat →
  pwrite old start data !! i = old !! i.
Proof.
  intros Hs Hl. unfold pwrite. destruct data as [|b data]; [done |].
  rewrite lookup_app_l by (rewrite length_take; lia).
  by rewrite lookup_take_lt.
Qed.

Lemma pwrite_lookup_gap (old : list byte) (start : nat) (data : list byte)
    (i : nat) :
  data ≠ [] → (length old ≤ i)%nat → (i < start)%nat →
  pwrite old start data !! i = Some x00.
Proof.
  intros Hd Hl Hs. unfold pwrite. destruct data as [|b data]; [done |].
  rewrite lookup_app_r by (rewrite length_take; lia).
  rewrite length_take.
  rewrite lookup_app_l by (rewrite length_replicate; lia).
  apply lookup_replicate_2. lia.
Qed.

Lemma pwrite_lookup_written (old : list byte) (start : nat) (data : list byte)
    (i : nat) :
  (i < length data)%nat →
  pwrite old start data !! (start + i)%nat = data !! i.
Proof.
  intros Hi. unfold pwrite. destruct data as [|b data]; [simpl in Hi; lia |].
  set (new := b :: data) in *.
  rewrite lookup_app_r by (rewrite length_take; lia).
  rewrite length_take.
  rewrite lookup_app_r by (rewrite length_replicate; lia).
  rewrite length_replicate.
  rewrite lookup_app_l by lia. f_equal. lia.
Qed.

Lemma pwrite_lookup_after (old : list byte) (start : nat) (data : list byte)
    (i : nat) :
  (start + length data ≤ i)%nat →
  pwrite old start data !! i = old !! i.
Proof.
  intros Hi. unfold pwrite. destruct data as [|b data]; [done |].
  set (new := b :: data) in *.
  rewrite lookup_app_r by (rewrite length_take; lia).
  rewrite length_take.
  rewrite lookup_app_r by (rewrite length_replicate; lia).
  rewrite length_replicate.
  rewrite lookup_app_r by lia.
  rewrite lookup_drop. f_equal. lia.
Qed.

Lemma received_length (req : request) :
  received req = length (concat (body req)).
Proof.
  unfold received. induction (body req) as [|b bs IH]; [done |].
  simpl. rewrite length_app. by f_equal.
Qed.

Lemma fs_unlink_lookup_ne (io : faults) (p q : string) (d : disk) :
  q ≠ p → fs_unlink io p d !! q = d !! q.
Proof.
  intros Hne. unfold fs_unlink. repeat case_match; try done.
  by rewrite lookup_delete_ne.
Qed.

(** The disk a resolved call leaves. *)
Lemma write_resolved_disk (store : FileStore) (io : faults) (req : request)
    (file_id : string) (offset : nat) (d : disk) (v : nat) :
  settled (write store io req file_id offset d) = Resolved v →
  ∃ old,
    d !! filePath store file_id = Some (RegularFile old)
    ∧ disk_of (write store io req file_id offset d)
      = fs_unlink io (filePath store file_id +:+ ".tmp")
          (<[filePath store file_id :=
               RegularFile (pwrite old offset (concat (body req)))]>
             (<[filePath store file_id +:+ ".tmp" :=
                  RegularFile (concat (body req))]> d)).
Proof.
  pose proof (tmp_ne_filePath store file_id) as Hne.
  unfold write, createWriteStream, createReadStream.
  intros Hres.
  repeat case_match; simplify_eq/=; simplify_map_eq; by eexists.
Qed.

Lemma write_resolved_data (store : FileStore) (io : faults) (req : request)
    (file_id : string) (offset : nat) (d : disk) (v : nat) :
  settled (write store io req file_id offset d) = Resolved v →
  ∃ old,
    d !! filePath store file_id = Some (RegularFile old)
    ∧ disk_of (write store io req file_id offset d) !! filePath store file_id
      = Some (RegularFile (pwrite old offset (concat (body req)))).
Proof.
  intros Hres.
  destruct (write_resolved_disk _ _ _ _ _ _ _ Hres) as (old & Hold & ->).
  exists old. split; [done |].
  rewrite fs_unlink_lookup_ne by (apply not_eq_sym, tmp_ne_filePath).
  by rewrite lookup_insert_eq.
Qed.

(** Whatever the outcome, the data artifact is as it was or was written
    at the offset. *)
Lemma write_data_after (store : FileStore) (io : faults) (req : request)
    (file_id : string) (offset : nat) (d : disk) (old : list byte) :
  d !! filePath store file_id = Some (RegularFile old) →
  ∃ new,
    disk_of (write store io req file_id offset d) !! filePath store file_id
    = Some (RegularFile new)
    ∧ (new = old ∨ new = pwrite old offset (concat (body req))).
Proof.
  intros Hold.
  destruct (settled (write store io req file_id offset d)) as [v| |] eqn:Hres.
  - destruct (write_resolved_data _ _ _ _ _ _ _ Hres) as (old' & Hold' & Hnew).
    simplify_eq. eexists. split; [done | by right].
  - exists old. rewrite write_unresolved_data by (intros v; by rewrite Hres).
    split; [done | by left].
  - exists old. rewrite write_unresolved_data by (intros v; by rewrite Hres).
    split; [done | by left].
Qed.

(** X7.  A resolved [write] changes only the range it was given: the
    bytes before the offset and the bytes after the written range are
    kept (the artifact is not truncated), the range holds the received
    bytes, and a gap between the old end and the offset reads as zeros. *)
Theorem write_keeps_other_bytes (store : FileStore) (io : faults)
    (req : request) (file_id : string) (offset : nat) (d : disk) (v : nat) :
  settled (write store io req file_id offset d) = Resolved v →
  ∃ old new,
    d !! filePath store file_id = Some (RegularFile old)
    ∧ disk_of (write store io req file_id offset d) !! filePath store file_id
      = Some (RegularFile new)
    ∧ (∀ i, (i < offset)%nat → (i < length old)%nat → new !! i = old !! i)
    ∧ (∀ i, (offset + received req ≤ i)%nat → new !! i = old !! i)
    ∧ (∀ i, (i < received req)%nat →
            new !! (offset + i)%nat = concat (body req) !! i)
    ∧ (∀ i, (0 < received req)%nat → (length old ≤ i)%nat → (i < offset)%nat →
            new !! i = Some x00).
Proof.
  intros Hres.
  destruct (write_resolved_data _ _ _ _ _ _ _ Hres) as (old & Hold & Hnew).
  exists old, (pwrite old offset (concat (body req))).
  rewrite received_length.
  split; [done |]. split; [done |]. split; [| split; [| split]].
  - intros i. apply pwrite_lookup_before.
  - intros i. apply pwrite_lookup_after.
  - intros i. apply pwrite_lookup_written.
  - intros i Hpos. apply pwrite_lookup_gap.
    intros Heq. rewrite Heq in Hpos. simpl in Hpos. lia.
Qed.

Lemma write_keeps_other_bytes_witness :
  ∃ new,
    disk_of (write demo_store no_faults (request_of [] ["ef"]) "u" 6 written)
      !! "files/u" = Some (RegularFile new)
    ∧ new !! 0%nat = Some "a"%byte
    ∧ new !! 4%nat = Some x00
    ∧ new !! 7%nat = Some "f"%byte.
Proof.
  destruct (write_keeps_other_bytes demo_store no_faults
              (request_of [] ["ef"]) "u" 6 written 8
              ltac:(vm_compute; reflexivity))
    as (old & new & Hold & Hnew & Hbefore & _ & Hin & Hgap).
  assert (old = bytes "abcd") as ->
    by (vm_compute in Hold; injection Hold as <-; reflexivity).
  exists new. split; [exact Hnew |]. split; [| split].
  - rewrite (Hbefore 0%nat); [reflexivity | lia | simpl; lia].
  - apply (Hgap 4%nat); [vm_compute; lia | simpl; lia | lia].
  - apply (Hin 1%nat). vm_compute. lia.
Defined.

(** X8.  No [write] call, whatever its outcome, shrinks the data
    artifact or changes the bytes before the offset. *)
Theorem write_never_shrinks (store : FileStore) (io : faults)
    (req : request) (file_id : string) (offset : nat) (d : disk)
    (old : list byte) :
  d !! filePath store file_id = Some (RegularFile old) →
  ∃ new,
    disk_of (write store io req file_id offset d) !! filePath store file_id
    = Some (RegularFile new)
    ∧ (length old ≤ length new)%nat
    ∧ take (offset `min` length old) new = take (offset `min` length old) old.
Proof.
  intros Hold.
  destruct (write_data_after store io req file_id offset d old Hold)
    as (new & Hnew & [-> | ->]); eexists; (split; [exact Hnew |]).
  - done.
  - split.
    + rewrite pwrite_length. case_match; lia.
    + apply list_eq. intros i.
      destruct (decide (i < offset `min` length old)%nat) as [Hi|Hi].
      * rewrite !lookup_take_lt by done. apply pwrite_lookup_before; lia.
      * by rewrite !lookup_take_ge by lia.
Qed.

Lemma write_never_shrinks_witness :
  ∃ new,
    disk_of (write demo_store no_faults
               (request_of [("upload-checksum", "sha1 AAAA")] ["xy"]) "u" 1
               written) !! "files/u" = Some (RegularFile new)
    ∧ (4 ≤ length new)%nat
    ∧ take 1 new = take 1 (bytes "abcd").
Proof.
  apply (write_never_shrinks demo_store no_faults
           (request_of [("upload-checksum", "sha1 AAAA")] ["xy"]) "u" 1
           written (bytes "abcd")).
  vm_compute. reflexivity.
Defined.

Lemma getFileInfo_no_size (store : FileStore) (io : faults)
    (file_id : string) (d : disk) :
  get_prop (getFileInfo store no_faults file_id d) "size" = None →
  get_prop (getFileInfo store io file_id d) "size" = None.
Proof.
  intros Hrec. by destruct (getFileInfo_fault store io file_id d) as [-> | ->].
Qed.

(** A record written by [create] has no [size] property. *)
Lemma File_object_no_size (file : File) :
  get_prop (File_object file) "size" = None.
Proof. destruct file as [i [ul|] [udl|] [um|]]; reflexivity. Qed.



(** X10.  [write] then [getOffset], for an upload whose metadata record
    has no [size] property: after a resolved call the reported size is
    the old size if nothing was received and otherwise the larger of the
    old size and the returned offset; when the call started at the old
    size it is the returned offset.  The metadata assigned onto the
    status is the one from before the call. *)
Theorem write_then_getOffset (store : FileStore) (io io' : faults)
    (req : request) (file_id : string) (offset : nat) (d : disk) (v : nat) :
  get_prop (getFileInfo store no_faults file_id d) "size" = None →
  settled (write store io req file_id offset d) = Resolved v →
  io' (SysStat (filePath store file_id)) = None →
  ∃ old view,
    d !! filePath store file_id = Some (RegularFile old)
    ∧ getOffset store io' file_id (disk_of (write store io req file_id offset d))
      = Resolved view
    ∧ reported_size view
      = JNum (Z.of_nat (if decide (received req = 0%nat) then length old
                        else (length old `max` v)%nat)) 0
    ∧ (offset = length old → reported_size view = JNum (Z.of_nat v) 0)
    ∧ assigned view = getFileInfo store io' file_id d.
Proof.
  intros Hrec Hres Hio.
  pose proof (write_resolved_value _ _ _ _ _ _ _ Hres) as ->.
  destruct (write_resolved_data _ _ _ _ _ _ _ Hres) as (old & Hold & Hnew).
  exists old. eexists. split; [done |].
  rewrite (getOffset_regular _ _ _ _ _ Hnew Hio).
  split; [done |]. unfold reported_size. simpl.
  rewrite (getFileInfo_ext store io' file_id d)
    by (apply write_frame; [apply infoPath_ne_filePath | apply infoPath_ne_tmp]).
  rewrite getFileInfo_no_size by done. simpl.
  rewrite pwrite_length, received_length.
  split; [| split; [| done]].
  - do 2 f_equal.
    case_decide as Hz; destruct (concat (body req)); simpl in *; try done; lia.
  - intros ->. do 2 f_equal. destruct (concat (body req)); simpl; lia.
Qed.

Lemma write_then_getOffset_witness :
  ∃ view,
    getOffset demo_store no_faults "u"
      (disk_of (write demo_store no_faults (request_of [] ["efghij"]) "u" 4
                  written)) = Resolved view
    ∧ reported_size view = JNum 10 0.
Proof.
  destruct (write_then_getOffset demo_store no_faults no_faults
              (request_of [] ["efghij"]) "u" 4 written 10
              ltac:(vm_compute; reflexivity)
              ltac:(vm_compute; reflexivity) eq_refl)
    as (old & view & Hold & Hview & _ & Hsize & _).
  exists view. split; [exact Hview |].
  apply Hsize. vm_compute in Hold. injection Hold as <-. reflexivity.
Defined.

(** X11.  The disk after a resolved [write] whose unlink works: the
    disk from before the call with the range written into the data
    artifact and without any staging artifact, also one left by an
    earlier rejected call. *)
Theorem write_success_disk (store : FileStore) (io : faults)
    (req : request) (file_id : string) (offset : nat) (d : disk) (v : nat) :
  settled (write store io req file_id offset d) = Resolved v →
  io (SysUnlink (filePath store file_id +:+ ".tmp")) = None →
  ∃ old,
    d !! filePath store file_id = Some (RegularFile old)
    ∧ disk_of (write store io req file_id offset d)
      = <[filePath store file_id :=
            RegularFile (pwrite old offset (concat (body req)))]>
          (delete (filePath store file_id +:+ ".tmp") d).
Proof.
  intros Hres Hio.
  pose proof (tmp_ne_filePath store file_id) as Hne.
  destruct (write_resolved_disk _ _ _ _ _ _ _ Hres) as (old & Hold & ->).
  exists old. split; [done |].
  unfold fs_unlink. rewrite Hio.
  rewrite lookup_insert_ne, lookup_insert_eq by done.
  rewrite delete_insert_ne by done. by rewrite delete_insert_eq.
Qed.

Lemma write_success_disk_witness :
  disk_of (write demo_store no_faults (request_of [] ["abcd"]) "u" 0 rejected)
    !! "files/u.tmp" = None
  ∧ rejected !! "files/u.tmp" = Some (RegularFile (bytes "abc")).
Proof.
  destruct (write_success_disk demo_store no_faults (request_of [] ["abcd"])
              "u" 0 rejected 4 ltac:(vm_compute; reflexivity) eq_refl)
    as (old & _ & ->).
  split; [| vm_compute; reflexivity].
  rewrite lookup_insert_ne by (vm_compute; discriminate).
  apply lookup_delete_eq.
Defined.

(** X12.  [write] never creates the data artifact: for an identifier
    without one, no call resolves or emits, and the path stays free.  A
    call without checksum declaration is then rejected with
    [FILE_WRITE_ERROR], and its staged bytes stay in the staging
    artifact. *)
Theorem write_never_creates_data (store : FileStore) (io : faults)
    (req : request) (file_id : string) (offset : nat) (d : disk) :
  d !! filePath store file_id = None →
  let r := write store io req file_id offset d in
  disk_of r !! filePath store file_id = None
  ∧ (∀ v, settled r ≠ Resolved v)
  ∧ emitted r = []
  ∧ (headers req !! "upload-checksum" = None →
     staged store io file_id d →
     io (SysCreateReadStream (filePath store file_id +:+ ".tmp")) = None →
     settled r = Rejected FILE_WRITE_ERROR
     ∧ disk_of r !! (filePath store file_id +:+ ".tmp")
       = Some (RegularFile (concat (body req)))).
Proof.
  intros Hd r.
  pose proof (tmp_ne_filePath store file_id) as Hne.
  assert (Hno : ∀ v, settled r ≠ Resolved v).
  { intros v Hres.
    destruct (write_resolved_data _ _ _ _ _ _ _ Hres) as (old & Hold & _).
    by simplify_eq. }
  split; [| split; [done | split]].
  - subst r. by rewrite write_unresolved_data.
  - unfold r. rewrite write_emitted. fold r.
    destruct (settled r) as [v| |] eqn:Hs; try done. by destruct (Hno v).
  - intros Hhdr Hst Hread. subst r.
    unfold write, verify_checksum, createReadStream.
    rewrite (staged_createWriteStream _ _ req _ _ Hst), Hhdr, Hread.
    rewrite lookup_insert_eq.
    unfold createWriteStream.
    rewrite lookup_insert_ne, Hd by done.
    destruct (io (SysCreateWriteStream (filePath store file_id))); simpl;
      by rewrite lookup_insert_eq.
Qed.

Lemma write_never_creates_data_witness :
  let r := write demo_store no_faults (request_of [] ["abc"]) "v" 0 created in
  settled r = Rejected FILE_WRITE_ERROR
  ∧ disk_of r !! "files/v" = None
  ∧ disk_of r !! "files/v.tmp" = Some (RegularFile (bytes "abc")).
Proof.
  destruct (write_never_creates_data demo_store no_faults
              (request_of [] ["abc"]) "v" 0 created
              ltac:(vm_compute; reflexivity))
    as (Hfree & _ & _ & Hrej).
  destruct Hrej as [Hr Htmp];
    [reflexivity | split; [reflexivity | vm_compute; discriminate]
    | reflexivity |].
  split; [exact Hr |]. split; [exact Hfree | exact Htmp].
Defined.

(** *** The checksum declaration *)

Lemma sextet_eqb_space (z : Z) : Ascii.eqb (Base64.sextet z) " " = false.
Proof.
  unfold Base64.sextet.
  assert (Hall : forallb (λ n, negb (Ascii.eqb
                   (default "="%char (String.get n Base64.alphabet)) " "))
                   (seq 0 64) = true) by (vm_compute; reflexivity).
  rewrite forallb_forall in Hall.
  apply negb_true_iff, Hall, in_seq.
  pose proof (Z.mod_pos_bound z 64 ltac:(lia)). lia.
Qed.

Lemma encode_spaceless_le (n : nat) :
  ∀ bs, (length bs ≤ n)%nat → spaceless (Base64.encode bs) = true.
Proof.
  induction n as [|n IH]; intros bs Hn.
  - destruct bs; [done | simpl in Hn; lia].
  - destruct bs as [|a [|b [|c rest]]]; [done | | |];
      cbn [Base64.encode spaceless]; rewrite ?sextet_eqb_space; try done.
    simpl. apply IH. simpl in Hn. lia.
Qed.

Lemma sha1_base64_spaceless (bs : list byte) :
  spaceless (sha1_base64 bs) = true.
Proof. apply (encode_spaceless_le _ _ (le_n _)). Qed.

Lemma split_on_spaceless (s : string) :
  spaceless s = true → split_on " " s = [s].
Proof.
  induction s as [|c s IH]; [done |].
  cbn [spaceless split_on]. intros [Hc Hs]%andb_prop.
  apply negb_true_iff in Hc. rewrite Hc, (IH Hs). done.
Qed.

Lemma split_on_space (a b : string) :
  spaceless a = true →
  split_on " " (a +:+ String " " b) = a :: split_on " " b.
Proof.
  induction a as [|c a IH]; [done |].
  cbn [spaceless]. intros [Hc Ha]%andb_prop.
  apply negb_true_iff in Hc.
  change (String c a +:+ String " " b) with (String c (a +:+ String " " b)).
  cbn [split_on]. rewrite Hc, (IH Ha). done.
Qed.

(** "sha1", the digest, and anything after a further space. *)
Lemma correct_declaration (bs : list byte) (trailer : string) :
  trailer = "" ∨ (∃ rest, trailer = String " " rest) →
  split_on " " ("sha1 " +:+ sha1_base64 bs +:+ trailer) !! 0%nat = Some "sha1"
  ∧ split_on " " ("sha1 " +:+ sha1_base64 bs +:+ trailer) !! 1%nat
    = Some (sha1_base64 bs).
Proof.
  intros Htr.
  change ("sha1 " +:+ ?x) with ("sha1" +:+ String " " x).
  rewrite split_on_space by done.
  destruct Htr as [-> | [rest ->]].
  - rewrite append_empty_r.
    by rewrite split_on_spaceless by apply sha1_base64_spaceless.
  - by rewrite split_on_space by apply sha1_base64_spaceless.
Qed.

(** X13.  With the body staged, an existing data artifact and working
    streams, [write] resolves exactly when there is no checksum
    declaration or its first two space-separated pieces are "sha1" and
    the base64 SHA-1 digest of the body.  So the declaration made of
    "sha1" and the digest is accepted for every body, and what follows
    the digest after a further space is ignored. *)
Theorem write_commits_iff_verified (store : FileStore) (io : faults)
    (req : request) (file_id : string) (offset : nat) (d : disk)
    (old : list byte) :
  staged store io file_id d →
  io (SysCreateReadStream (filePath store file_id +:+ ".tmp")) = None →
  io (SysCreateWriteStream (filePath store file_id)) = None →
  d !! filePath store file_id = Some (RegularFile old) →
  let r := write store io req file_id offset d in
  (settled r = Resolved (offset + received req)%nat ↔ checksum_ok req)
  ∧ (∀ trailer,
       trailer = "" ∨ (∃ rest, trailer = String " " rest) →
       headers req !! "upload-checksum"
       = Some ("sha1 " +:+ sha1_base64 (concat (body req)) +:+ trailer) →
       settled r = Resolved (offset + received req)%nat).
Proof.
  intros Hst Hread Hcommit Hold r.
  pose proof (tmp_ne_filePath store file_id) as Hne.
  assert (Hiff : settled r = Resolved (offset + received req)%nat
                 ↔ checksum_ok req).
  { subst r. unfold write, verify_checksum, calculateSHA1File, createReadStream,
      checksum_ok.
    rewrite (staged_createWriteStream _ _ req _ _ Hst), Hread.
    rewrite lookup_insert_eq.
    unfold createWriteStream. rewrite Hcommit, lookup_insert_ne, Hold by done.
    destruct (headers req !! "upload-checksum") as [c|]; simpl; [| done].
    destruct (decide (split_on " " c !! 0%nat = Some "sha1")) as [Ha|Ha].
    - rewrite (bool_decide_eq_false_2 _ (λ H, H Ha)).
      destruct (decide (split_on " " c !! 1%nat
                        = Some (sha1_base64 (concat (body req))))) as [Hv|Hv].
      + rewrite (bool_decide_eq_false_2 _ (λ H, H Hv)). simpl. by split.
      + rewrite (bool_decide_eq_true_2 _ Hv). simpl.
        split; [done | by intros [_ ?]].
    - rewrite (bool_decide_eq_true_2 _ Ha). simpl.
      split; [done | by intros [? _]]. }
  split; [done |].
  intros trailer Htr Hhdr. apply Hiff. unfold checksum_ok. rewrite Hhdr.
  by apply correct_declaration.
Qed.

Lemma write_commits_iff_verified_witness :
  settled (write demo_store no_faults
             (request_of [("upload-checksum",
                           "sha1 qZk+NkcGgWq6PiVxeFDCbJzQ2J0= ignored")]
                ["abc"]) "u" 0 created)
  = Resolved 3%nat.
Proof.
  destruct (write_commits_iff_verified demo_store no_faults
              (request_of [("upload-checksum",
                            "sha1 qZk+NkcGgWq6PiVxeFDCbJzQ2J0= ignored")]
                 ["abc"]) "u" 0 created [])
    as [_ H].
  - split; [reflexivity | vm_compute; discriminate].
  - reflexivity.
  - reflexivity.
  - vm_compute. reflexivity.
  - apply (H " ignored"); [right; by eexists | vm_compute; reflexivity].
Defined.

Lemma sha1_digest_length (bs : list byte) : length (Sha1.digest bs) = 20%nat.
Proof.
  unfold Sha1.digest.
  destruct (fold_left Sha1.compress _ _) as [[[[h0 h1] h2] h3] h4].
  by rewrite !length_app.
Qed.

Lemma encode_length_20 (bs : list byte) :
  length bs = 20%nat → String.length (Base64.encode bs) = 28%nat.
Proof.
  intros Hlen.
  do 21 (destruct bs as [|? bs]; [simpl in Hlen; try lia |]);
    try (simpl in Hlen; lia).
  reflexivity.
Qed.

(** X14.  When [calculateSHA1File] resolves, the file is a regular file
    and the digest is that of its bytes: 28 characters, none of them a
    space. *)
Theorem calculateSHA1File_shape (io : faults) (fn : string) (d : disk)
    (h : string) :
  calculateSHA1File io fn d = Some h →
  (∃ content, d !! fn = Some (RegularFile content) ∧ h = sha1_base64 content)
  ∧ String.length h = 28%nat
  ∧ spaceless h = true.
Proof.
  unfold calculateSHA1File, createReadStream. intros H.
  repeat case_match; simplify_eq/=.
  split; [by eexists |]. split.
  - apply encode_length_20, sha1_digest_length.
  - apply sha1_base64_spaceless.
Qed.

Lemma calculateSHA1File_shape_witness :
  String.length "qZk+NkcGgWq6PiVxeFDCbJzQ2J0=" = 28%nat.
Proof.
  apply (calculateSHA1File_shape no_faults "files/u" orphan).
  vm_compute. reflexivity.
Defined.

(** *** Paths and other uploads *)

Lemma filePath_inj (store : FileStore) (a b : string) :
  filePath store a = filePath store b → a = b.
Proof.
  unfold filePath. intros Heq. by do 2 apply (inj (String.append _)) in Heq.
Qed.

Lemma filePath_suffix (store : FileStore) (a suffix : string) :
  filePath store a +:+ suffix = filePath store (a +:+ suffix).
Proof. unfold filePath. by rewrite !append_assoc. Qed.

(** X15.  The path strings: [filePath] and [infoPath] give different
    strings for different identifiers.  The metadata path of one
    identifier is the data path of another, as a string, exactly when
    the other identifier is the first followed by ".info", and likewise
    the staging path with ".tmp".  (Whether two different strings name
    one file is up to the file system: the store does not normalize
    identifiers.) *)
Theorem paths_injective (store : FileStore) (a b : string) :
  (filePath store a = filePath store b → a = b)
  ∧ (infoPath store a = infoPath store b → a = b)
  ∧ (infoPath store a = filePath store b ↔ b = a +:+ ".info")
  ∧ (filePath store a +:+ ".tmp" = filePath store b ↔ b = a +:+ ".tmp").
Proof.
  split; [apply filePath_inj |]. split; [| split].
  - rewrite !infoPath_filePath. intros Heq.
    apply append_inj_r in Heq. by apply (filePath_inj store).
  - rewrite infoPath_filePath, filePath_suffix.
    split; [intros Heq | by intros ->].
    symmetry. by apply (filePath_inj store).
  - rewrite filePath_suffix.
    split; [intros Heq | by intros ->].
    symmetry. by apply (filePath_inj store).
Qed.

(** X16.  For identifiers that are single path components: a [write] to
    one upload leaves the data artifact of every other upload as it was,
    unless the other's identifier is the written one followed by ".tmp"
    (its data artifact is then the staging artifact of the call), and
    leaves the metadata artifact of every other upload as it was, unless
    the written identifier is the other's followed by ".info". *)
Theorem write_leaves_other_uploads (store : FileStore) (io : faults)
    (req : request) (file_id : string) (offset : nat) (d : disk)
    (other : string) :
  plain_name file_id →
  plain_name other →
  other ≠ file_id →
  (other ≠ file_id +:+ ".tmp" →
   disk_of (write store io req file_id offset d) !! filePath store other
   = d !! filePath store other)
  ∧ (file_id ≠ other +:+ ".info" →
     disk_of (write store io req file_id offset d) !! infoPath store other
     = d !! infoPath store other).
Proof.
  intros _ _ Hne. split.
  - intros Htmp. apply write_frame.
    + intros Heq. by apply Hne, (filePath_inj store).
    + rewrite filePath_suffix. intros Heq.
      by apply Htmp, (filePath_inj store).
  - intros Hinfo. apply write_frame; [| apply infoPath_ne_any_tmp].
    rewrite infoPath_filePath, filePath_suffix. intros Heq.
    symmetry in Heq. by apply Hinfo, (filePath_inj store).
Qed.

Lemma write_leaves_other_uploads_witness :
  disk_of (write demo_store no_faults (request_of [] ["abcd"]) "v" 0 created)
    !! "files/u" = created !! "files/u"
  ∧ disk_of (write demo_store no_faults (request_of [] ["abcd"]) "v" 0 created)
      !! "files/u.info" = created !! "files/u.info".
Proof.
  destruct (write_leaves_other_uploads demo_store no_faults
              (request_of [] ["abcd"]) "v" 0 created "u") as [Hdata Hinfo].
  - repeat split; vm_compute; discriminate.
  - repeat split; vm_compute; discriminate.
  - vm_compute. discriminate.
  - split; [apply Hdata | apply Hinfo]; vm_compute; discriminate.
Defined.

(** *** The constructor *)

(** X17.  Constructing the store creates its directory when the path is
    free and otherwise changes nothing: the EEXIST of [fs.mkdir] is not
    thrown, whatever is at the path.  So constructing a second store with
    the same options on the disk the first one left throws nothing and
    changes nothing.  Any other error of [fs.mkdir] is thrown, the disk
    unchanged. *)
Theorem new_FileStore_idempotent (o : options) (d : disk) :
  let '(store, (thrown, d1)) := new_FileStore o None d in
  thrown = None
  ∧ is_Some (d1 !! directory store)
  ∧ (∀ node, d !! directory store = Some node → d1 = d)
  ∧ (∀ p, p ≠ directory store → d1 !! p = d !! p)
  ∧ new_FileStore o None d1 = (store, (None, d1))
  ∧ ∀ err, new_FileStore o (Some err) d = (store, (Some (MkdirError err), d)).
Proof.
  unfold new_FileStore, _checkOrCreateDirectory, fs_mkdir. cbn [directory].
  destruct (d !! new_directory o) as [node|] eqn:Hd.
  - cbv beta iota. rewrite Hd. by repeat split.
  - cbv beta iota. rewrite lookup_insert_eq. repeat split; try done.
    intros p Hp. by rewrite lookup_insert_ne.
Qed.

Lemma new_FileStore_idempotent_witness :
  new_FileStore demo_options None (<["files" := Directory]> ∅)
  = ({| directory := "files";
        namingFunction := namingFunction_option demo_options |},
     (None, <["files" := Directory]> ∅)).
Proof.
  pose proof (new_FileStore_idempotent demo_options ∅) as H.
  destruct H as (_ & _ & _ & _ & H & _). exact H.
Defined.

(** X18.  The checksum algorithm the constructor advertises in
    [extensionHeaders] is the one [write] accepts: once the body is
    staged, a call is rejected with [CHECKSUM_ALGORITHM_UNSUPPORTED]
    exactly when the first piece of its declaration is not the
    advertised algorithm. *)
Theorem advertised_checksum_algorithm (store : FileStore) (io : faults)
    (req : request) (file_id : string) (offset : nat) (d : disk)
    (upload_checksum : string) :
  headers req !! "upload-checksum" = Some upload_checksum →
  staged store io file_id d →
  settled (write store io req file_id offset d)
    = Rejected CHECKSUM_ALGORITHM_UNSUPPORTED
  ↔ split_on " " upload_checksum !! 0%nat
    ≠ extensionHeaders !! "Tus-Checksum-Algorithm".
Proof.
  intros Hhdr Hst.
  change (extensionHeaders !! "Tus-Checksum-Algorithm") with (Some "sha1").
  unfold write, verify_checksum.
  rewrite (staged_createWriteStream _ _ req _ _ Hst), Hhdr.
  destruct (decide (split_on " " upload_checksum !! 0%nat = Some "sha1"))
    as [Ha|Ha].
  - rewrite (bool_decide_eq_false_2 _ (λ H, H Ha)).
    split; [| done]. intros Hres. exfalso.
    repeat case_match; by simplify_eq/=.
  - by rewrite (bool_decide_eq_true_2 _ Ha).
Qed.

Lemma advertised_checksum_algorithm_witness :
  settled (write demo_store no_faults
             (request_of [("upload-checksum", "SHA1 AAAA")] ["abc"]) "u" 0
             created)
  = Rejected CHECKSUM_ALGORITHM_UNSUPPORTED.
Proof.
  apply (advertised_checksum_algorithm demo_store no_faults
           (request_of [("upload-checksum", "SHA1 AAAA")] ["abc"]) "u" 0
           created "SHA1 AAAA").
  - reflexivity.
  - split; [reflexivity | vm_compute; discriminate].
  - vm_compute. discriminate.
Defined.

(** ** The metadata artifact under [write] *)



